(** * imperio: voice-activity segmentation, PCM conversion and the
      transcription response loop

    A shallow embedding of [imperio/audio/utils.py] and of
    [SpeechRecognizer._handle_responses] in
    [imperio/Speech/SpeechRecognizer.py].

    Python [float] is IEEE 754 binary64: it is embedded as Rocq's primitive
    [float], so that [0.9 * 20] or [int(100 * 0.87)] evaluate here to the very
    value CPython computes.  Python [bytes] are lists of [byte]; a generator is
    the list of the items it yields over a finite source. *)

From Stdlib Require Import String Ascii.
From Stdlib Require Import ZArith List Bool Lia Floats.
Import ListNotations.

Set Warnings "-inexact-float".

(** ** Python values shared by both source files *)

Module Py.

Definition bytes := list Byte.byte.

(** [b"".join(chunks)] *)
Definition join (chunks : list bytes) : bytes := List.concat chunks.

Inductive exn :=
| NameError (name : string)
| AttributeError (attr : string)
| ValueError (msg : string)
| OverflowError (msg : string)
| ZeroDivisionError.

(** Outcome of a Python expression that may raise. *)
Inductive result (A : Type) :=
| Ok (a : A)
| Raise (e : exn).
Arguments Ok {A} a.
Arguments Raise {A} e.

Definition bind {A B} (r : result A) (k : A -> result B) : result B :=
  match r with
  | Ok a => k a
  | Raise e => Raise e
  end.

(** [float(z)] for a Python int: the nearest binary64 value, ties to even
    (exact whenever [|z| < 2^53]). *)
Definition float_of_Z (z : Z) : float :=
  SF2Prim (binary_normalize prec emax z 0 false).

(** [x * n] with [x] a float and [n] an int: the int is converted first. *)
Definition float_mul_int (x : float) (n : Z) : float :=
  PrimFloat.mul x (float_of_Z n).

(** [n > x] with [n] an int and [x] a float.  CPython compares the two
    exactly; below [2^53] that is the binary64 comparison of [float(n)]
    with [x], and it is [False] when [x] is a NaN. *)
Definition int_gt_float (n : Z) (x : float) : bool :=
  PrimFloat.ltb x (float_of_Z n).

(** The integer part of [m * 2^e]. *)
Definition magnitude (m : positive) (e : Z) : Z :=
  (if 0 <=? e then Z.pos m * 2 ^ e else Z.pos m / 2 ^ (- e))%Z.

(** The integer part of a finite float, rounding toward zero; [None] for an
    infinity or a NaN. *)
Definition trunc (x : float) : option Z :=
  match Prim2SF x with
  | S754_zero _ => Some 0%Z
  | S754_finite s m e => Some (if s then (- magnitude m e)%Z else magnitude m e)
  | S754_infinity _ => None
  | S754_nan => None
  end.

Definition is_nan (x : float) : bool :=
  match Prim2SF x with
  | S754_nan => true
  | _ => false
  end.

(** [int(x)] for a float [x]. *)
Definition int_of_float (x : float) : result Z :=
  match Prim2SF x with
  | S754_nan => Raise (ValueError "cannot convert float NaN to integer")
  | S754_infinity _ =>
      Raise (OverflowError "cannot convert float infinity to integer")
  | _ => match trunc x with
         | Some z => Ok z
         | None => Raise (ValueError "cannot convert float NaN to integer")
         end
  end.

Definition is_inf (x : float) : bool :=
  match Prim2SF x with
  | S754_infinity _ => true
  | _ => false
  end.

End Py.

(** ** [collections.deque(maxlen=n)] *)

Module Deque.

Record deque (A : Type) := mk { maxlen : nat; items : list A }.
Arguments mk {A} maxlen items.
Arguments maxlen {A} d.
Arguments items {A} d.

Definition empty {A} (n : nat) : deque A := mk n [].

(** [d.append(x)]: the element goes on the right; a deque that is then
    longer than [maxlen] drops its leftmost element. *)
Definition append {A} (d : deque A) (x : A) : deque A :=
  let l := items d ++ [x] in
  mk (maxlen d) (if maxlen d <? length l then tl l else l).

(** [d.clear()] keeps [maxlen]. *)
Definition clear {A} (d : deque A) : deque A := mk (maxlen d) [].

Definition len {A} (d : deque A) : nat := length (items d).

End Deque.

(** ** [audio/utils.py]: [vad_collector] *)

Module Vad.
Import Py Deque.

Section Collector.

(** What [frame_dtype_conv_fn] hands to the classifier. *)
Variable VadFrame : Type.

(** The keyword arguments of [vad_collector].  [vad_is_speech] stands for
    the bound method [vad.is_speech]. *)
Record params := {
  vad_is_speech : VadFrame -> Z -> bool;
  sample_rate : Z;
  num_padding_frames : nat;
  act_inact_ratio : float;
  frame_dtype_conv_fn : bytes -> VadFrame
}.

(** The local variables of the generator between two frames. *)
Record state := {
  ring_buff : deque (bytes * bool);
  triggered : bool;
  voiced_frames : list bytes
}.

(** An item the generator yields: [Some segment], or [None] for the break
    in speech. *)
Definition item := option bytes.

Variable p : params.

Definition init : state :=
  {| ring_buff := Deque.empty (num_padding_frames p);
     triggered := false;
     voiced_frames := [] |}.

(** [len([f for f, speech in ring_buff if speech])] *)
Definition num_voiced (rb : deque (bytes * bool)) : nat :=
  length (filter (fun e => snd e) (items rb)).

(** [len([f for f, speech in ring_buff if not speech])] *)
Definition num_unvoiced (rb : deque (bytes * bool)) : nat :=
  length (filter (fun e => negb (snd e)) (items rb)).

(** [count > (act_inact_ratio * ring_buff.maxlen)] *)
Definition over_ratio (count : nat) (rb : deque (bytes * bool)) : bool :=
  int_gt_float (Z.of_nat count)
    (float_mul_int (act_inact_ratio p) (Z.of_nat (maxlen rb))).

Definition is_speech (frame : bytes) : bool :=
  vad_is_speech p (frame_dtype_conv_fn p frame) (sample_rate p).

(** One iteration of [for frame in streamer], with the items it yields. *)
Definition step (st : state) (frame : bytes) : state * list item :=
  let speech := is_speech frame in
  if negb (triggered st) then
    let rb := append (ring_buff st) (frame, speech) in
    if over_ratio (num_voiced rb) rb then
      ({| ring_buff := clear rb;
          triggered := true;
          voiced_frames := voiced_frames st ++ map fst (items rb) |}, [])
    else
      ({| ring_buff := rb;
          triggered := triggered st;
          voiced_frames := voiced_frames st |}, [])
  else
    let vf := voiced_frames st ++ [frame] in
    let rb := append (ring_buff st) (frame, speech) in
    if over_ratio (num_unvoiced rb) rb then
      ({| ring_buff := clear rb;
          triggered := false;
          voiced_frames := [] |}, [Some (join vf); None])
    else
      ({| ring_buff := rb;
          triggered := triggered st;
          voiced_frames := vf |}, []).

(** The loop over a finite [streamer], from the locals [st]: the locals
    when the source is exhausted, and everything yielded on the way. *)
Fixpoint run (st : state) (streamer : list bytes) : state * list item :=
  match streamer with
  | [] => (st, [])
  | frame :: rest =>
      let (st1, out1) := step st frame in
      let (st2, out2) := run st1 rest in
      (st2, out1 ++ out2)
  end.

(** The generator: it ends, without yielding more, when [streamer] ends. *)
Definition vad_collector (streamer : list bytes) : list item :=
  snd (run init streamer).

Definition final_state (streamer : list bytes) : state :=
  fst (run init streamer).

(** Where a run from [init] stands: after [pre] the engine was back in its
    initial state with everything yielded so far, and [post] has yielded
    nothing; what the state holds are the last frames of [post]. *)
Definition stands (frames : list bytes) (st : state) (out : list item) : Prop :=
  exists pre post,
    frames = pre ++ post
    /\ run init pre = (init, out)
    /\ run init post = (st, [])
    /\ (if triggered st
        then voiced_frames st <> [] /\ exists m, post = m ++ voiced_frames st
        else voiced_frames st = []
             /\ exists m, post = m ++ map fst (items (ring_buff st))).

End Collector.

(** The frames a state still holds: the segment in progress, then the ring. *)
Definition held (st : state) : list bytes :=
  voiced_frames st ++ map fst (items (ring_buff st)).

(** What the generator yields for one finished segment: lines 100 and 105. *)
Definition framed (fs : list bytes) : list item := [Some (join fs); None].


Arguments vad_is_speech {VadFrame} p.
Arguments sample_rate {VadFrame} p.
Arguments num_padding_frames {VadFrame} p.
Arguments act_inact_ratio {VadFrame} p.
Arguments frame_dtype_conv_fn {VadFrame} p.
Arguments init {VadFrame} p.
Arguments over_ratio {VadFrame} p count rb.
Arguments is_speech {VadFrame} p frame.
Arguments step {VadFrame} p st frame.
Arguments run {VadFrame} p st streamer.
Arguments vad_collector {VadFrame} p streamer.
Arguments final_state {VadFrame} p streamer.
Arguments stands {VadFrame} p frames st out.

End Vad.

(** ** [numpy] as [audio/utils.py] uses it *)

Module Numpy.
Import Py.

(** An [ndarray] of dtype [float64]. *)
Definition farray := list float.

Inductive int_dtype :=
| int8 | int16 | int32 | int64
| uint8 | uint16 | uint32 | uint64.

(** [np.iinfo(int_type)] *)
Record iinfo := { bits : Z; min : Z; max : Z }.

Definition signed (t : int_dtype) : bool :=
  match t with
  | int8 | int16 | int32 | int64 => true
  | _ => false
  end.

Definition np_iinfo (t : int_dtype) : iinfo :=
  match t with
  | int8 => {| bits := 8; min := -128; max := 127 |}
  | int16 => {| bits := 16; min := -32768; max := 32767 |}
  | int32 => {| bits := 32; min := -2147483648; max := 2147483647 |}
  | int64 => {| bits := 64; min := -9223372036854775808; max := 9223372036854775807 |}
  | uint8 => {| bits := 8; min := 0; max := 255 |}
  | uint16 => {| bits := 16; min := 0; max := 65535 |}
  | uint32 => {| bits := 32; min := 0; max := 4294967295 |}
  | uint64 => {| bits := 64; min := 0; max := 18446744073709551615 |}
  end%Z.

(** [a * n] for a [float64] array and a Python int. *)
Definition mul_int (a : farray) (n : Z) : farray :=
  map (fun x => float_mul_int x n) a.

(** [minimum(maximum(x, lo), hi)] on one element; a NaN stays a NaN. *)
Definition clip1 (lo hi x : float) : float :=
  let y := if PrimFloat.ltb x lo then lo else x in
  if PrimFloat.ltb hi y then hi else y.

(** [a.clip(lo, hi)] with Python ints as bounds. *)
Definition clip (a : farray) (lo hi : Z) : farray :=
  map (clip1 (float_of_Z lo) (float_of_Z hi)) a.

Section Cast.

(** What the C conversion of the build gives for a float the integer type
    cannot hold (a NaN, an infinity, a value beyond the type): the language
    leaves it undefined, and the processor decides. *)
Variable invalid : int_dtype -> float -> Z.

(** The C conversion behind [astype(int_type)] on one element: the
    fractional part is dropped; what the type cannot hold is [invalid]'s. *)
Definition cast1 (t : int_dtype) (x : float) : Z :=
  match trunc x with
  | Some z =>
      if ((min (np_iinfo t) <=? z) && (z <=? max (np_iinfo t)))%Z
      then z else invalid t x
  | None => invalid t x
  end.

Definition astype (t : int_dtype) (a : farray) : list Z := map (cast1 t) a.

End Cast.

End Numpy.

(** ** [audio/utils.py]: [audio_float2int] and [audio_resample] *)

Module Convert.
Import Py Numpy.

(** The [data] argument and the value returned: an array, or its bytes. *)
Inductive audio (A : Type) :=
| Arr (a : list A)
| Buf (b : bytes).
Arguments Arr {A} a.
Arguments Buf {A} b.

Section Float2Int.

(** The conversion of what the integer type cannot hold, as in [Numpy]. *)
Variable invalid : int_dtype -> float -> Z.
(** [np.frombuffer(data, dtype=np.float64)], which raises on a buffer whose
    size is no multiple of eight, and [ndarray.tobytes()]. *)
Variable frombuffer : bytes -> result farray.
Variable tobytes : int_dtype -> list Z -> bytes.

(** Lines 31-33, on the array. *)
Definition float2int_array (a : farray) (int_type : int_dtype) : list Z :=
  let int_info := np_iinfo int_type in
  let abs_max := (2 ^ (bits int_info - 1))%Z in
  astype invalid int_type (clip (mul_int a abs_max) (min int_info) (max int_info)).

(** [audio_float2int(data, float_type, int_type)]: [Buf b] is the call
    with [float_type=np.float64], [Arr a] the call with [float_type=None]
    on a [float64] array. *)
Definition audio_float2int (data : audio float) (int_type : int_dtype)
  : result (audio Z) :=
  match data with
  | Arr a => Ok (Arr (float2int_array a int_type))
  | Buf b =>
      bind (frombuffer b)
        (fun a => Ok (Buf (tobytes int_type (float2int_array a int_type))))
  end.

End Float2Int.

(** *** [floatToInt] as the specification words it

    Multiply by [2^(bitDepth-1)], clamp to
    [[-2^(bitDepth-1), 2^(bitDepth-1)-1]], convert to the integer type.  The
    bounds are the integers themselves, and a float is compared with them
    exactly: every finite binary64 value is a whole multiple of [2^-1074].
    The product is the float product, which is exact short of an overflow
    to an infinity, and an infinity is clamped like any value beyond the
    bound.  The conversion [to_int] of a float within the bounds is a
    parameter: [nearest] is rounding, [Py.trunc] drops the fraction.  Of a
    NaN the specification says nothing ([None]). *)

(** The value of a float, times [2^1074]; an infinity lies beyond every
    finite value. *)
Definition scaled_sf (x : spec_float) : Z :=
  match x with
  | S754_zero _ => 0
  | S754_finite s m e =>
      if s then - (Z.pos m * 2 ^ (e + 1074)) else Z.pos m * 2 ^ (e + 1074)
  | S754_infinity s => if s then - 2 ^ 2100 else 2 ^ 2100
  | S754_nan => 0
  end%Z.

Definition scaled (x : float) : Z := scaled_sf (Prim2SF x).

Definition floatToInt1 (to_int : float -> option Z) (bitDepth : Z) (x : float)
  : option Z :=
  let scale := (2 ^ (bitDepth - 1))%Z in
  let lo := (- scale)%Z in
  let hi := (scale - 1)%Z in
  let y := PrimFloat.mul x (float_of_Z scale) in
  if is_nan y then None
  else if (scaled y <? lo * 2 ^ 1074)%Z then Some lo
  else if (hi * 2 ^ 1074 <? scaled y)%Z then Some hi
  else to_int y.

Fixpoint traverse {A B} (f : A -> option B) (l : list A) : option (list B) :=
  match l with
  | [] => Some []
  | a :: rest =>
      match f a, traverse f rest with
      | Some b, Some bs => Some (b :: bs)
      | _, _ => None
      end
  end.

Definition floatToInt (to_int : float -> option Z) (samples : farray)
    (bitDepth : Z) : option (list Z) :=
  traverse (floatToInt1 to_int bitDepth) samples.


(** What a name of [audio_resample]'s scope is bound to. *)
Inductive value :=
| VNone
| VInt (z : Z)
| VArray (a : farray)
| VBytes (b : bytes)
| VModule (name : string)
| VFunction (name : string)
| VObject (attrs : list (string * Z)).

Definition scope := list (string * value).

Fixpoint lookup (env : scope) (name : string) : option value :=
  match env with
  | [] => None
  | (n, v) :: rest => if String.eqb n name then Some v else lookup rest name
  end.

(** The module's global names: its imports and its four functions. *)
Definition utils_globals : scope :=
  [ ("np", VModule "numpy"); ("signal", VModule "scipy.signal");
    ("deque", VFunction "collections.deque"); ("webrtcvad", VModule "webrtcvad");
    ("audio_resample", VFunction "audio_resample");
    ("audio_float2int", VFunction "audio_float2int");
    ("audio_int2float", VFunction "audio_int2float");
    ("vad_collector", VFunction "vad_collector") ]%string.

(** Reading a name inside a function: its locals, then the module's globals
    (no builtin is called [self]). *)
Definition load_name (locals : scope) (name : string) : result value :=
  match lookup locals name with
  | Some v => Ok v
  | None =>
      match lookup utils_globals name with
      | Some v => Ok v
      | None => Raise (NameError name)
      end
  end.

(** [obj.attr] for the two integer attributes line 15 reads: only an
    object that carries them has them. *)
Definition getattr (obj : value) (attr : string) : result Z :=
  match obj with
  | VObject attrs =>
      match find (fun kv => String.eqb (fst kv) attr) attrs with
      | Some kv => Ok (snd kv)
      | None => Raise (AttributeError attr)
      end
  | _ => Raise (AttributeError attr)
  end.

(** [a // b] on Python ints. *)
Definition floordiv (a b : Z) : result Z :=
  if (b =? 0)%Z then Raise ZeroDivisionError else Ok (a / b)%Z.

Section Resample.

Variable DType : Type.
(** [np.frombuffer(data, dtype=dtype)] raises on a buffer whose size is no
    multiple of the element size. *)
Variable frombuffer : bytes -> DType -> result farray.
Variable tobytes : DType -> farray -> bytes.
(** The memory of an array, as the buffer protocol exposes it. *)
Variable array_buffer : farray -> bytes.
(** [scipy.signal.resample(data, size)] *)
Variable signal_resample : farray -> Z -> farray.

Definition data_value (data : audio float) : value :=
  match data with
  | Arr a => VArray a
  | Buf b => VBytes b
  end.

Definition buffer_of (data : audio float) : bytes :=
  match data with
  | Arr a => array_buffer a
  | Buf b => b
  end.

Definition data_len (data : audio float) : Z :=
  match data with
  | Arr a => Z.of_nat (length a)
  | Buf b => Z.of_nat (length b)
  end.

(** [audio_resample(data, sample_rate, resample_rate, dtype)], lines
    12-21.  Line 15 reads [self], which is neither a parameter nor a
    global of the module. *)
Definition audio_resample (data : audio float) (sample_rate resample_rate : Z)
    (dtype : option DType) : result (audio float) :=
  bind (match dtype with
        | Some d => bind (frombuffer (buffer_of data) d) (fun a => Ok (Arr a))
        | None => Ok data
        end) (fun data1 =>
  let locals : scope :=
    [ ("data", data_value data1); ("sample_rate", VInt sample_rate);
      ("resample_rate", VInt resample_rate);
      ("dtype", match dtype with Some _ => VFunction "dtype" | None => VNone end)
    ]%string in
  let n := data_len data1 in
  bind (load_name locals "self") (fun self1 =>
  bind (getattr self1 "resample_rate") (fun rr =>
  bind (load_name locals "self") (fun self2 =>
  bind (getattr self2 "sample_rate") (fun sr =>
  bind (floordiv (n * rr) sr) (fun size =>
  match data1 with
  | Arr a =>
      let out := signal_resample a size in
      match dtype with
      | Some d => Ok (Buf (tobytes d out))
      | None => Ok (Arr out)
      end
  | Buf b => Raise (ValueError "resample of a bytes object")
  end)))))).

End Resample.

Section Int2Float.

(** [np.frombuffer(data, dtype=int_type)] and [ndarray.tobytes()]. *)
Variable frombuffer_int : int_dtype -> bytes -> list Z.
Variable tobytes_float : farray -> bytes.

(** Lines 51-52 on the array, with [float_type=np.float64]:
    [data.astype(float_type) / abs_max]. *)
Definition int2float_array (a : list Z) (int_type : int_dtype) : farray :=
  let int_info := np_iinfo int_type in
  let abs_max := (2 ^ (bits int_info - 1))%Z in
  map (fun z => PrimFloat.div (float_of_Z z) (float_of_Z abs_max)) a.

(** [audio_int2float(data, int_type, float_type=np.float64)]: [Buf b] is the
    call with [int_type] given, [Arr a] the call with [int_type=None] on an
    array of dtype [int_type]. *)
Definition audio_int2float (data : audio Z) (int_type : int_dtype) : audio float :=
  match data with
  | Arr a => Arr (int2float_array a int_type)
  | Buf b => Buf (tobytes_float (int2float_array (frombuffer_int int_type b) int_type))
  end.

End Int2Float.

(** One sample there and back, on [float64]: what comes back is within the
    type, and is the sample. *)
Definition there_and_back (t : int_dtype) (z : Z) : bool :=
  match int2float_array [z] t with
  | [x] =>
      match
        trunc (clip1 (float_of_Z (min (np_iinfo t))) (float_of_Z (max (np_iinfo t)))
                 (float_mul_int x (2 ^ (bits (np_iinfo t) - 1))))
      with
      | Some v =>
          ((v =? z) && (min (np_iinfo t) <=? v) && (v <=? max (np_iinfo t)))%Z
      | None => false
      end
  | _ => false
  end.

(** A sample becomes a float from -1.0 up to, but not, 1.0. *)
Definition in_unit (t : int_dtype) (z : Z) : bool :=
  match int2float_array [z] t with
  | [x] => PrimFloat.leb (-1) x && PrimFloat.ltb x 1
  | _ => false
  end.

(** The values an array of dtype [t] can hold. *)
Definition fits (t : int_dtype) (z : Z) : Prop :=
  (min (np_iinfo t) <= z <= max (np_iinfo t))%Z.

(** [f] holds of the [2^n] integers from [base] on. *)
Fixpoint all_from (n : nat) (base : Z) (f : Z -> bool) : bool :=
  match n with
  | O => f base
  | S k => all_from k base f && all_from k (base + 2 ^ Z.of_nat k)%Z f
  end.

End Convert.

(** ** [audio/utils.py] on [np.float32] arrays

    [audio_int2float] returns [float_type=np.float32] by default, and
    [audio_float2int] computes in the dtype of the array it is given.
    Binary32 values are [spec_float]s, rounded by the standard library's
    operations at precision 24. *)

Module Single.
Import Py Numpy Convert.

Definition prec32 : Z := 24.
Definition emax32 : Z := 128.

(** [np.float32(z)] *)
Definition of_Z (z : Z) : spec_float := binary_normalize prec32 emax32 z 0 false.

Definition strunc (x : spec_float) : option Z :=
  match x with
  | S754_zero _ => Some 0%Z
  | S754_finite s m e => Some (if s then (- magnitude m e)%Z else magnitude m e)
  | S754_infinity _ => None
  | S754_nan => None
  end.

Definition sclip1 (lo hi x : spec_float) : spec_float :=
  let y := if SFltb x lo then lo else x in
  if SFltb hi y then hi else y.

(** The conversion on one element; [None] where the type cannot hold the
    value and the answer is the build's (see [Numpy.cast1]). *)
Definition scast1 (t : int_dtype) (x : spec_float) : option Z :=
  match strunc x with
  | Some z =>
      if ((min (np_iinfo t) <=? z) && (z <=? max (np_iinfo t)))%Z
      then Some z else None
  | None => None
  end.

(** Lines 51-52 on an array, with [float_type=np.float32]. *)
Definition int2float_array (a : list Z) (int_type : int_dtype) : list spec_float :=
  let int_info := np_iinfo int_type in
  let abs_max := (2 ^ (bits int_info - 1))%Z in
  map (fun z => SFdiv prec32 emax32 (of_Z z) (of_Z abs_max)) a.

(** Lines 31-33 on a [float32] array. *)
Definition float2int_array (a : list spec_float) (int_type : int_dtype)
  : option (list Z) :=
  let int_info := np_iinfo int_type in
  let abs_max := (2 ^ (bits int_info - 1))%Z in
  traverse (scast1 int_type)
    (map (sclip1 (of_Z (min int_info)) (of_Z (max int_info)))
       (map (fun x => SFmul prec32 emax32 x (of_Z abs_max)) a)).

(** One sample there and back. *)
Definition there_and_back (t : int_dtype) (z : Z) : bool :=
  match float2int_array (int2float_array [z] t) t with
  | Some [v] => (v =? z)%Z
  | _ => false
  end.

End Single.

(** ** [Speech/SpeechRecognizer.py]: [SpeechRecognizer._handle_responses] *)

Module Recognizer.
Import Py.

(** The fields the loop reads of a streaming recognition response. *)
Record alternative := { transcript : string; confidence : float }.
Record recognition_result := { alternatives : list alternative; is_final : bool }.
Record response := { results : list recognition_result }.

(** What the loop does to the outside, in order. *)
Inductive event :=
| GetBatch (text : string) (reset : bool)
| Process (batch : list string) (reset : bool)
| Print (text : string).

Definition nl : string := String (ascii_of_nat 10) EmptyString.

(** What the [print] of line 198 writes on standard output: its three
    arguments (the header, [text], the footer), a space between them and a
    newline after. *)
Definition print_final (text : string) : string :=
  (("--Final--" ++ nl) ++ " " ++ text ++ " " ++ (nl ++ "---" ++ nl) ++ nl)%string.

(** [int(100 * confidence)] *)
Definition percent (c : float) : result Z :=
  int_of_float (PrimFloat.mul (float_of_Z 100) c).

(** The filter as the specification words it: at least one result, and
    either more than one result or a sole result that is final. *)
Definition processed_spec (r : response) : Prop :=
  1 <= length (results r)
  /\ (1 < length (results r)
      \/ exists sole, results r = [sole] /\ is_final sole = true).

(** The transcript of a response whose first result is final and has an
    alternative: its first alternative's. *)
Definition final_text (r : response) : list string :=
  match results r with
  | first :: _ =>
      if is_final first then
        match alternatives first with
        | alt :: _ => [transcript alt]
        | [] => []
        end
      else []
  | [] => []
  end.

Section Handle.

(** The state of [self._text_batcher], and its [get_batch(text, reset)]. *)
Variable Batcher : Type.
Variable get_batch : Batcher -> string -> bool -> option (list string) * Batcher.

(** After a response: the batcher, the events, and the exception that
    ended the loop, if one did. *)
Record outcome := {
  text_batcher : option Batcher;
  trace : list event;
  raised : option exn
}.

Definition skip (tb : option Batcher) : outcome :=
  {| text_batcher := tb; trace := []; raised := None |}.

(** The condition of lines 178-180. *)
Definition selected (r : response) : bool :=
  match results r with
  | [] => false
  | first :: _ => (1 <? length (results r)) || is_final first
  end.

(** Lines 182-198, for a response the condition selected. *)
Definition handle_result (tb : option Batcher) (result : recognition_result)
  : outcome :=
  match alternatives result with
  | [] => skip tb
  | alt :: _ =>
      let text := transcript alt in
      match percent (confidence alt) with
      | Raise e => {| text_batcher := tb; trace := []; raised := Some e |}
      | Ok confidence =>
          let '(batch, tb1, ev1) :=
            match tb with
            | Some b =>
                let (batch, b1) := get_batch b text (is_final result) in
                (batch, Some b1, [GetBatch text (is_final result)])
            | None =>
                if is_final result then (Some [text], None, [])
                else (None, None, [])
            end in
          let ev2 :=
            match batch with
            | Some (x :: xs) => [Process (x :: xs) (is_final result)]
            | _ => []
            end in
          let ev3 :=
            if is_final result then [Print (print_final text)] else [] in
          {| text_batcher := tb1; trace := ev1 ++ ev2 ++ ev3; raised := None |}
      end
  end.

(** One iteration of [for response in responses]. *)
Definition handle_response (tb : option Batcher) (r : response) : outcome :=
  if selected r then
    match results r with
    | result :: _ => handle_result tb result
    | [] => skip tb
    end
  else skip tb.

(** [_handle_responses(responses)] over a finite stream. *)
Fixpoint handle_responses (tb : option Batcher) (rs : list response) : outcome :=
  match rs with
  | [] => skip tb
  | r :: rest =>
      let o := handle_response tb r in
      match raised o with
      | Some _ => o
      | None =>
          let o' := handle_responses (text_batcher o) rest in
          {| text_batcher := text_batcher o';
             trace := trace o ++ trace o';
             raised := raised o' |}
      end
  end.

End Handle.

Arguments text_batcher {Batcher} o.
Arguments trace {Batcher} o.
Arguments raised {Batcher} o.

End Recognizer.

(** ** Concrete inputs *)

Module Demo.
Import Py Deque Vad.

(** The defaults of [vad_collector] ([num_padding_frames=20],
    [act_inact_ratio=0.9], the identity as frame adapter) with a classifier
    that calls a frame speech when its first byte is not zero. *)
Definition vad20 : params bytes :=
  {| vad_is_speech := fun f _ =>
       match f with
       | Byte.x00 :: _ => false
       | [] => false
       | _ => true
       end;
     sample_rate := 16000;
     num_padding_frames := 20;
     act_inact_ratio := 0.9%float;
     frame_dtype_conv_fn := fun f => f |}.

Definition loud : bytes := [Byte.x01; Byte.x7f].
Definition quiet : bytes := [Byte.x00; Byte.x00].

(** One final result, "hello" with confidence 0.87. *)
Definition hello_final : Recognizer.response :=
  {| Recognizer.results :=
       [ {| Recognizer.alternatives :=
              [ {| Recognizer.transcript := "hello";
                   Recognizer.confidence := 0.87%float |} ];
            Recognizer.is_final := true |} ] |}.

(** No result at all; one interim result; two results of which the first has
    no alternative. *)
Definition no_results : Recognizer.response := {| Recognizer.results := [] |}.

Definition interim (text : string) : Recognizer.recognition_result :=
  {| Recognizer.alternatives :=
       [ {| Recognizer.transcript := text; Recognizer.confidence := 0.5%float |} ];
     Recognizer.is_final := false |}.

Definition one_interim : Recognizer.response :=
  {| Recognizer.results := [interim "hel"] |}.

Definition blank_first : Recognizer.response :=
  {| Recognizer.results :=
       [ {| Recognizer.alternatives := []; Recognizer.is_final := true |};
         interim "lo" ] |}.

(** A final result whose confidence is not a number. *)
Definition nan_final : Recognizer.response :=
  {| Recognizer.results :=
       [ {| Recognizer.alternatives :=
              [ {| Recognizer.transcript := "???";
                   Recognizer.confidence := PrimFloat.nan |} ];
            Recognizer.is_final := true |} ] |}.

(** The conversion an x86-64 build makes of a float the type cannot hold:
    [cvttsd2si] to 32 bits (to 64 for the 64-bit types and [uint32]) answers
    the least integer of that width for a NaN or a value beyond it, and the
    result is cut down to the type. *)
Definition x86_invalid (t : Numpy.int_dtype) (x : float) : Z :=
  let width : Z :=
    match t with
    | Numpy.int64 | Numpy.uint64 | Numpy.uint32 => 64%Z
    | _ => 32%Z
    end in
  let cvtt (y : float) : Z :=
    match Py.trunc y with
    | Some z => if ((- 2 ^ (width - 1) <=? z) && (z <? 2 ^ (width - 1)))%Z
                then z else (- 2 ^ (width - 1))%Z
    | None => (- 2 ^ (width - 1))%Z
    end in
  let b := Numpy.bits (Numpy.np_iinfo t) in
  match t with
  | Numpy.uint64 =>
      if PrimFloat.leb (Py.float_of_Z (2 ^ 63)) x
      then ((cvtt (PrimFloat.sub x (Py.float_of_Z (2 ^ 63))) + 2 ^ 63) mod 2 ^ 64)%Z
      else (cvtt x mod 2 ^ 64)%Z
  | Numpy.uint8 | Numpy.uint16 | Numpy.uint32 => (cvtt x mod 2 ^ b)%Z
  | _ => ((cvtt x + 2 ^ (b - 1)) mod 2 ^ b - 2 ^ (b - 1))%Z
  end.

(** A batcher that counts its calls and hands back every text as a batch. *)
Definition echo_batcher (calls : nat) (text : string) (reset : bool)
  : option (list string) * nat :=
  (Some [text], S calls).

End Demo.

(** ** [Speech/SpeechRecognizer.py]: [AudioStreamer]

    The audio callback, [__exit__] and the consumer of [stream()] run in
    different contexts and meet in the thread-safe [queue.Queue]; each
    operation on the queue is atomic.  A run of the streamer is a schedule:
    the order in which those operations took place. *)

Module Streamer.
Import Py.

(** Where the generator [stream] stands. *)
Inductive position :=
| Head                          (* at [while not self.closed] *)
| Waiting                       (* in the blocking [self._buff.get()] *)
| Draining (data : list bytes)  (* in [while True], before the next [get(block=False)] *)
| Returned.

(** [self._buff] (a [None] in it is the end-of-stream sentinel),
    [self.closed], the generator, and what it has yielded. *)
Record streamer := {
  buff : list (option bytes);
  closed : bool;
  at_ : position;
  yielded : list bytes
}.

(** [__init__]: an empty queue, [closed = True]; no [stream()] item yet. *)
Definition init : streamer :=
  {| buff := []; closed := true; at_ := Head; yielded := [] |}.

Inductive action :=
| Enter                    (* [__enter__], line 50: [closed = False] *)
| Fill (in_data : bytes)   (* [_fill_buffer]: [self._buff.put(in_data)] *)
| Close                    (* [__exit__], line 57: [closed = True] *)
| Sentinel                 (* [__exit__], line 60: [self._buff.put(None)] *)
| Next.                    (* the consumer takes [stream()] one operation further *)

(** The generator up to its next operation on the streamer: the test of the
    outer loop, a [get], or the [yield] after [queue.Empty]. *)
Definition next (s : streamer) : streamer :=
  match at_ s with
  | Head =>
      {| buff := buff s; closed := closed s;
         at_ := if closed s then Returned else Waiting;
         yielded := yielded s |}
  | Waiting =>
      match buff s with
      | [] => s
      | None :: q =>
          {| buff := q; closed := closed s; at_ := Returned; yielded := yielded s |}
      | Some chunk :: q =>
          {| buff := q; closed := closed s; at_ := Draining [chunk];
             yielded := yielded s |}
      end
  | Draining data =>
      match buff s with
      | [] =>
          {| buff := []; closed := closed s; at_ := Head;
             yielded := yielded s ++ [join data] |}
      | None :: q =>
          {| buff := q; closed := closed s; at_ := Returned; yielded := yielded s |}
      | Some chunk :: q =>
          {| buff := q; closed := closed s; at_ := Draining (data ++ [chunk]);
             yielded := yielded s |}
      end
  | Returned => s
  end.

Definition act (s : streamer) (a : action) : streamer :=
  match a with
  | Enter =>
      {| buff := buff s; closed := false; at_ := at_ s; yielded := yielded s |}
  | Fill in_data =>
      {| buff := buff s ++ [Some in_data]; closed := closed s; at_ := at_ s;
         yielded := yielded s |}
  | Close =>
      {| buff := buff s; closed := true; at_ := at_ s; yielded := yielded s |}
  | Sentinel =>
      {| buff := buff s ++ [None]; closed := closed s; at_ := at_ s;
         yielded := yielded s |}
  | Next => next s
  end.

Definition run (s : streamer) (schedule : list action) : streamer :=
  fold_left act schedule s.

(** The audio the callback delivered over a schedule, in order. *)
Fixpoint filled (schedule : list action) : list bytes :=
  match schedule with
  | [] => []
  | Fill in_data :: rest => in_data :: filled rest
  | _ :: rest => filled rest
  end.

(** The chunks of a queue, its sentinels left out. *)
Fixpoint chunks (q : list (option bytes)) : list bytes :=
  match q with
  | [] => []
  | Some c :: rest => c :: chunks rest
  | None :: rest => chunks rest
  end.

(** The chunks the generator has taken off the queue and not yet yielded. *)
Definition in_hand (s : streamer) : list bytes :=
  match at_ s with
  | Draining data => data
  | _ => []
  end.

(** Nothing is lost while the generator lives: the audio delivered is what
    was yielded, then what the generator holds, then what is queued. *)
Definition conserved (schedule : list action) (s : streamer) : Prop :=
  match at_ s with
  | Returned => exists rest, join (filled schedule) = join (yielded s) ++ rest
  | _ =>
      join (filled schedule)
      = join (yielded s) ++ join (in_hand s) ++ join (chunks (buff s))
  end.

Definition entered (a : action) : bool :=
  match a with
  | Enter => true
  | _ => false
  end.

End Streamer.

(** ** The ring buffer *)

Module DequeFacts.
Import Deque.

Lemma maxlen_append {A} (d : deque A) x : maxlen (append d x) = maxlen d.
Proof. reflexivity. Qed.

Lemma len_append {A} (d : deque A) x :
  len d <= maxlen d -> len (append d x) <= maxlen d.
Proof.
  unfold len, append; cbn [items maxlen]; intros H.
  destruct (Nat.ltb_spec (maxlen d) (length (items d ++ [x]))) as [Hlt | Hge].
  - destruct (items d ++ [x]) as [| y l] eqn:E.
    + cbn; lia.
    + apply (f_equal (@length A)) in E.
      rewrite length_app in E; cbn in E |- *; lia.
  - exact Hge.
Qed.

Lemma len_fold_append {A} (xs : list A) (d : deque A) :
  len d <= maxlen d ->
  len (fold_left append xs d) <= maxlen d
  /\ maxlen (fold_left append xs d) = maxlen d.
Proof.
  revert d; induction xs as [| x xs IH]; intros d H; cbn [fold_left].
  - split; [exact H | reflexivity].
  - destruct (IH (append d x)) as [IH1 IH2].
    + rewrite maxlen_append. now apply len_append.
    + rewrite maxlen_append in IH1, IH2. now split.
Qed.

Lemma append_full {A} (old : A) rest x :
  items (append (mk (length (old :: rest)) (old :: rest)) x) = rest ++ [x].
Proof.
  unfold append; cbn [items maxlen].
  replace (length (old :: rest) <? length ((old :: rest) ++ [x])) with true.
  - reflexivity.
  - symmetry; apply Nat.ltb_lt. rewrite length_app; cbn; lia.
Qed.

Lemma append_nonempty {A} (d : deque A) x :
  0 < maxlen d -> items (append d x) <> [].
Proof.
  unfold append; cbn [items maxlen]; intros Hpos.
  destruct (Nat.ltb_spec (maxlen d) (length (items d ++ [x]))) as [Hlt | Hge].
  - destruct (items d) as [| y l]; cbn in *.
    + lia.
    + destruct l; cbn; discriminate.
  - destruct (items d); cbn; discriminate.
Qed.

End DequeFacts.

(** ** The segmentation engine *)

Module VadFacts.
Import Py Deque Vad DequeFacts.

Section Facts.

Context {VadFrame : Type} (p : params VadFrame).

Local Abbreviation step := (step p).
Local Abbreviation run := (run p).
Local Abbreviation init := (init p).

Lemma run_app st a b :
  run st (a ++ b) =
  (fst (run (fst (run st a)) b), snd (run st a) ++ snd (run (fst (run st a)) b)).
Proof.
  revert st; induction a as [| f a IH]; intros st; cbn [List.app Vad.run].
  - cbn. now destruct (run st b).
  - destruct (step st f) as [st1 out1].
    rewrite IH.
    destruct (run st1 a) as [st2 out2]; cbn [fst snd].
    destruct (run st2 b) as [st3 out3]; cbn [fst snd].
    now rewrite app_assoc.
Qed.

Lemma run_snoc st a f :
  run st (a ++ [f]) =
  (fst (step (fst (run st a)) f), snd (run st a) ++ snd (step (fst (run st a)) f)).
Proof.
  rewrite run_app. cbn [Vad.run].
  destruct (step (fst (run st a)) f) as [st1 out1]; cbn [fst snd].
  now rewrite app_nil_r.
Qed.

(** The ring a step leaves behind never outgrows its [maxlen]. *)
Lemma step_ring st f :
  len (ring_buff st) <= maxlen (ring_buff st) ->
  len (ring_buff (fst (step st f))) <= maxlen (ring_buff st)
  /\ maxlen (ring_buff (fst (step st f))) = maxlen (ring_buff st).
Proof.
  intros H. unfold Vad.step.
  pose proof (len_append (ring_buff st) (f, is_speech p f) H) as Ha.
  destruct (triggered st); cbn [negb];
    match goal with |- context [if ?c then _ else _] => destruct c end;
    cbn [fst ring_buff clear len items maxlen]; split;
    try reflexivity; try exact Ha; cbn; lia.
Qed.

Lemma run_ring frames : forall st,
  len (ring_buff st) <= maxlen (ring_buff st) ->
  len (ring_buff (fst (run st frames))) <= maxlen (ring_buff st)
  /\ maxlen (ring_buff (fst (run st frames))) = maxlen (ring_buff st).
Proof.
  induction frames as [| f frames IH]; intros st H; cbn [Vad.run].
  - cbn; split; [exact H | reflexivity].
  - destruct (step_ring st f H) as [H1 H2].
    destruct (step st f) as [st1 out1]; cbn [fst] in H1, H2.
    assert (H3 : len (ring_buff st1) <= maxlen (ring_buff st1)) by lia.
    destruct (IH st1 H3) as [H4 H5].
    destruct (run st1 frames) as [st2 out2]; cbn [fst] in *.
    split; congruence || lia.
Qed.

Lemma final_ring frames :
  len (ring_buff (final_state p frames)) <= num_padding_frames p
  /\ maxlen (ring_buff (final_state p frames)) = num_padding_frames p.
Proof.
  unfold final_state.
  apply (run_ring frames init). cbn; lia.
Qed.

(** What a step yields: a segment and a break when it leaves the
    triggered state, nothing otherwise. *)
Lemma step_yield st f :
  snd (step st f) =
  if triggered st && negb (triggered (fst (step st f)))
  then [Some (join (voiced_frames st ++ [f])); None]
  else [].
Proof.
  unfold Vad.step.
  destruct (triggered st) eqn:T; cbn [negb andb];
    match goal with |- context [if ?c then _ else _] => destruct c end;
    cbn [fst snd triggered negb]; try rewrite T; reflexivity.
Qed.

Lemma incl_tl {A} (l : list A) : incl (tl l) l.
Proof. destruct l; [apply incl_refl | apply incl_tl, incl_refl]. Qed.

Lemma append_frames (d : deque (bytes * bool)) f b :
  incl (map fst (items (append d (f, b)))) (map fst (items d) ++ [f]).
Proof.
  unfold append; cbn [items].
  replace (map fst (items d) ++ [f]) with (map fst (items d ++ [(f, b)]))
    by (rewrite map_app; reflexivity).
  destruct (maxlen d <? length (items d ++ [(f, b)])).
  - apply incl_map, incl_tl.
  - apply incl_refl.
Qed.

Lemma step_held st f : incl (held (fst (step st f))) (held st ++ [f]).
Proof.
  pose proof (append_frames (ring_buff st) f (is_speech p f)) as Ha.
  unfold Vad.step, held.
  destruct (triggered st); cbn [negb];
    match goal with |- context [if ?c then _ else _] => destruct c end;
    cbn [fst voiced_frames ring_buff clear items map];
    intros x Hx; rewrite ?app_nil_r in Hx;
    repeat (apply in_app_or in Hx; destruct Hx as [Hx | Hx]);
    try apply Ha in Hx;
    repeat (apply in_app_or in Hx; destruct Hx as [Hx | Hx]);
    try (cbn in Hx; contradiction);
    rewrite ?in_app_iff; auto.
Qed.

Lemma run_framed frames : forall st,
  exists segs,
    snd (run st frames) = flat_map framed segs
    /\ Forall (fun fs => fs <> [] /\ incl fs (held st ++ frames)) segs.
Proof.
  induction frames as [| f frames IH]; intros st; cbn [Vad.run].
  - exists []. split; [reflexivity | constructor].
  - pose proof (step_yield st f) as Hy.
    pose proof (step_held st f) as Hh.
    destruct (step st f) as [st1 out1]; cbn [fst snd] in Hy, Hh.
    destruct (IH st1) as (segs & Hs & Hall).
    destruct (run st1 frames) as [st2 out2]; cbn [fst snd] in Hs |- *.
    assert (Hall' : Forall (fun fs => fs <> [] /\ incl fs (held st ++ f :: frames)) segs).
    { eapply Forall_impl; [| exact Hall].
      intros fs [Hne Hin]; split; [exact Hne |].
      intros x Hx. apply Hin in Hx.
      apply in_app_or in Hx; destruct Hx as [Hx | Hx].
      - apply Hh in Hx. apply in_app_or in Hx; destruct Hx as [Hx | Hx].
        + apply in_or_app; now left.
        + apply in_or_app; right. destruct Hx as [<- | []]. now left.
      - apply in_or_app; right. now right. }
    destruct (triggered st && negb (triggered st1)) eqn:E.
    + exists ((voiced_frames st ++ [f]) :: segs). subst out1 out2. split.
      * reflexivity.
      * constructor; [| exact Hall']. split.
        -- destruct (voiced_frames st); discriminate.
        -- intros x Hx. unfold held.
           apply in_app_or in Hx; destruct Hx as [Hx | Hx].
           ++ rewrite !in_app_iff; auto.
           ++ destruct Hx as [<- | []]. rewrite !in_app_iff; right; now left.
    + exists segs. subst out1 out2. split; [reflexivity | exact Hall'].
Qed.


(** A capacity of zero never triggers, whatever the ratio: [0 > r * 0] is
    false for every binary64 [r], a NaN included. *)
Lemma never_over_zero (r : float) :
  int_gt_float 0 (float_mul_int r 0) = false.
Proof.
  unfold int_gt_float, float_mul_int.
  replace (float_of_Z 0) with 0%float by (vm_compute; reflexivity).
  rewrite ltb_spec, mul_spec.
  replace (Prim2SF 0) with (S754_zero false) by (vm_compute; reflexivity).
  destruct (Prim2SF r) as [s | s | | s m e]; try destruct s; reflexivity.
Qed.

Lemma append_suffix (d : deque (bytes * bool)) f b :
  exists h, map fst (items d) ++ [f] = h ++ map fst (items (append d (f, b))).
Proof.
  unfold append; cbn [items].
  replace (map fst (items d) ++ [f]) with (map fst (items d ++ [(f, b)]))
    by (rewrite map_app; reflexivity).
  destruct (maxlen d <? length (items d ++ [(f, b)])).
  - destruct (items d ++ [(f, b)]) as [| x l].
    + exists []. reflexivity.
    + exists [fst x]. reflexivity.
  - exists []. reflexivity.
Qed.

(** A ring that triggers holds at least one frame. *)
Lemma trigger_nonempty (rb : deque (bytes * bool)) x :
  len rb <= maxlen rb ->
  over_ratio p (num_voiced (append rb x)) (append rb x) = true ->
  items (append rb x) <> [].
Proof.
  intros Hlen Hover.
  destruct (maxlen rb) as [| n] eqn:Hn.
  - exfalso.
    assert (Hnil : items rb = []).
    { unfold len in Hlen. destruct (items rb); [reflexivity | cbn in Hlen; lia]. }
    assert (Happ : append rb x = Deque.mk 0 []).
    { unfold append. rewrite Hn, Hnil. reflexivity. }
    rewrite Happ in Hover.
    unfold over_ratio, num_voiced in Hover; cbn [items maxlen filter length] in Hover.
    change (Z.of_nat 0) with 0%Z in Hover.
    rewrite never_over_zero in Hover. discriminate.
  - apply append_nonempty. lia.
Qed.

Lemma run_pair st frames : run st frames = (fst (run st frames), snd (run st frames)).
Proof. apply surjective_pairing. Qed.

Lemma run_stands frames :
  stands p frames (final_state p frames) (vad_collector p frames).
Proof.
  induction frames as [| f frames IH] using rev_ind.
  - exists [], []. cbn. repeat split. exists []. reflexivity.
  - destruct IH as (pre & post & Hsplit & Hpre & Hpost & Hheld).
    pose proof (final_ring frames) as [Hlen Hmax].
    unfold final_state, vad_collector in *.
    rewrite run_snoc; cbn [fst snd].
    set (st := fst (run init frames)) in *.
    set (out := snd (run init frames)) in *.
    assert (Hpost' : run init (post ++ [f]) =
                     (fst (step st f), snd (step st f))).
    { rewrite run_snoc, Hpost. reflexivity. }
    pose proof (append_suffix (ring_buff st) f (is_speech p f)) as [h Hh].
    destruct (step st f) as [st1 out1] eqn:Hs; cbn [fst snd] in *.
    unfold Vad.step in Hs.
    destruct (triggered st) eqn:T; cbn [negb] in Hs.
    + destruct Hheld as [Hne [m Hm]].
      destruct (over_ratio p _ _) eqn:O; injection Hs as <- <-.
      * exists (frames ++ [f]), [].
        rewrite app_nil_r.
        assert (Hinit : {| ring_buff := clear (append (ring_buff st) (f, is_speech p f));
                           triggered := false; voiced_frames := [] |} = init).
        { unfold Vad.init, clear, Deque.empty; cbn [maxlen append].
          now rewrite Hmax. }
        rewrite Hinit. split; [reflexivity |]. split; [| split].
        -- rewrite run_snoc. fold st out. unfold Vad.step.
           rewrite T; cbn [negb]. rewrite O; cbn [fst snd].
           now rewrite Hinit.
        -- reflexivity.
        -- cbn. split; [reflexivity | exists []; reflexivity].
      * exists pre, (post ++ [f]). cbn [triggered voiced_frames]. rewrite ?T.
        subst frames. split; [now rewrite app_assoc |].
        split; [now rewrite app_nil_r |]. split; [exact Hpost' |]. split.
        -- destruct (voiced_frames st); discriminate.
        -- exists m. rewrite Hm at 1. now rewrite app_assoc.
    + destruct Hheld as [Hnil [m Hm]].
      destruct (over_ratio p _ _) eqn:O; injection Hs as <- <-;
        cbn [triggered voiced_frames ring_buff]; rewrite ?T;
        exists pre, (post ++ [f]); subst frames;
        (split; [now rewrite app_assoc |]);
        (split; [now rewrite app_nil_r |]); (split; [exact Hpost' |]); split.
      * rewrite Hnil; cbn [List.app].
        intros E. apply map_eq_nil in E.
        revert E.
        apply (trigger_nonempty (ring_buff st) (f, is_speech p f)); [lia | exact O].
      * exists (m ++ h). rewrite Hnil; cbn [List.app].
        rewrite Hm at 1. rewrite <- !app_assoc. rewrite Hh. reflexivity.
      * exact Hnil.
      * exists (m ++ h). rewrite Hm at 1. rewrite <- !app_assoc. rewrite Hh.
        reflexivity.
Qed.

Lemma filter_all {A} (g : A -> bool) (l : list A) :
  Forall (fun e => g e = true) l -> filter g l = l.
Proof.
  induction 1 as [| e l He _ IH]; cbn; [reflexivity |].
  now rewrite He, IH.
Qed.

Lemma append_room {A} (n : nat) (r : list A) (x : A) :
  length r < n -> append (Deque.mk n r) x = Deque.mk n (r ++ [x]).
Proof.
  intros H. unfold append; cbn [items maxlen].
  replace (n <? length (r ++ [x])) with false; [reflexivity |].
  symmetry; apply Nat.ltb_ge. rewrite length_app; cbn; lia.
Qed.

(** While the count stays under the ratio, a silent engine only fills its
    ring with the speech frames it is fed. *)
Lemma fill_silent (n : nat) (l : list bytes) : forall r vf,
  Forall (fun f => is_speech p f = true) l ->
  Forall (fun e => snd e = true) r ->
  length r + length l <= n ->
  (forall k, k <= length r + length l ->
     int_gt_float (Z.of_nat k)
       (float_mul_int (act_inact_ratio p) (Z.of_nat n)) = false) ->
  run {| ring_buff := Deque.mk n r; triggered := false; voiced_frames := vf |} l
  = ({| ring_buff := Deque.mk n (r ++ map (fun f => (f, true)) l);
        triggered := false; voiced_frames := vf |}, []).
Proof.
  induction l as [| f l IH]; intros r vf Hl Hr Hn Hk; cbn [Vad.run map].
  - now rewrite app_nil_r.
  - inversion Hl as [| ? ? Hf Hl']; subst.
    cbn [length] in Hn, Hk.
    unfold Vad.step; cbn [triggered negb ring_buff voiced_frames].
    rewrite Hf, append_room by lia.
    assert (Hr' : Forall (fun e => snd e = true) (r ++ [(f, true)])).
    { apply Forall_app; split; [exact Hr | repeat constructor]. }
    unfold over_ratio, num_voiced; cbn [items maxlen].
    rewrite (filter_all (fun e => snd e) _ Hr'), Hk by (rewrite length_app; cbn; lia).
    rewrite IH; try assumption.
    + now rewrite <- app_assoc.
    + rewrite length_app; cbn; lia.
    + intros k Hle. apply Hk. rewrite length_app in Hle; cbn in Hle; lia.
Qed.

(** While the count stays under the ratio, a triggered engine only collects
    the non-speech frames it is fed. *)
Lemma fill_voiced (n : nat) (l : list bytes) : forall r vf,
  Forall (fun f => is_speech p f = false) l ->
  Forall (fun e => negb (snd e) = true) r ->
  length r + length l <= n ->
  (forall k, k <= length r + length l ->
     int_gt_float (Z.of_nat k)
       (float_mul_int (act_inact_ratio p) (Z.of_nat n)) = false) ->
  run {| ring_buff := Deque.mk n r; triggered := true; voiced_frames := vf |} l
  = ({| ring_buff := Deque.mk n (r ++ map (fun f => (f, false)) l);
        triggered := true; voiced_frames := vf ++ l |}, []).
Proof.
  induction l as [| f l IH]; intros r vf Hl Hr Hn Hk; cbn [Vad.run map].
  - now rewrite !app_nil_r.
  - inversion Hl as [| ? ? Hf Hl']; subst.
    cbn [length] in Hn, Hk.
    unfold Vad.step; cbn [triggered negb ring_buff voiced_frames].
    rewrite Hf, append_room by lia.
    assert (Hr' : Forall (fun e => negb (snd e) = true) (r ++ [(f, false)])).
    { apply Forall_app; split; [exact Hr | repeat constructor]. }
    unfold over_ratio, num_unvoiced; cbn [items maxlen].
    rewrite (filter_all (fun e => negb (snd e)) _ Hr'), Hk
      by (rewrite length_app; cbn; lia).
    rewrite IH; try assumption.
    + now rewrite <- !app_assoc.
    + rewrite length_app; cbn; lia.
    + intros k Hle. apply Hk. rewrite length_app in Hle; cbn in Hle; lia.
Qed.

Lemma join_app (a b : list bytes) : join (a ++ b) = join a ++ join b.
Proof. apply concat_app. Qed.

(** The first item a triggered engine yields starts with the segment it has
    collected so far. *)
Lemma first_item_extends frames : forall st it out,
  triggered st = true ->
  snd (run st frames) = it :: out ->
  exists tail, it = Some (join (voiced_frames st) ++ tail).
Proof.
  induction frames as [| f frames IH]; intros st it out T H; cbn [Vad.run] in H.
  - discriminate.
  - destruct (step st f) as [st1 out1] eqn:Hs.
    destruct (run st1 frames) as [st2 out2] eqn:Hr; cbn [snd] in H.
    unfold Vad.step in Hs. rewrite T in Hs; cbn [negb] in Hs.
    destruct (over_ratio p _ _); injection Hs as <- <-.
    + injection H as <- _. exists (join [f]). now rewrite join_app.
    + cbn [List.app] in H.
      assert (Hsnd : snd (run {| ring_buff := append (ring_buff st) (f, is_speech p f);
                                 triggered := true;
                                 voiced_frames := voiced_frames st ++ [f] |} frames)
                     = it :: out) by (rewrite Hr; exact H).
      apply IH in Hsnd; [| reflexivity]. destruct Hsnd as [tail Ht].
      cbn [voiced_frames] in Ht. rewrite join_app, <- app_assoc in Ht.
      eexists; exact Ht.
Qed.

Lemma last_framed (segs : list (list bytes)) :
  last (flat_map framed segs) None = None.
Proof.
  induction segs as [| fs segs IH]; [reflexivity |].
  cbn [flat_map framed List.app].
  destruct (flat_map framed segs) eqn:E; [reflexivity | exact IH].
Qed.

End Facts.

(** C9: whatever is inserted, the ring buffer never holds more than its
    configured capacity: neither a deque filled from empty by any sequence
    of [append]s, nor the engine's [ring_buff] after any stream (so at every
    point of it), whose [maxlen] stays [num_padding_frames].  An insertion
    into a full ring drops the oldest element and keeps the others, in
    order, before the new one. *)
Theorem C9_ring_size_bounded :
  forall (VadFrame : Type) (p : params VadFrame) (streamer : list bytes)
         (A : Type) (n : nat) (xs : list A) (old x : A) (rest : list A),
    len (fold_left append xs (Deque.empty n)) <= n
    /\ len (ring_buff (final_state p streamer)) <= num_padding_frames p
    /\ maxlen (ring_buff (final_state p streamer)) = num_padding_frames p
    /\ items (append (Deque.mk (length (old :: rest)) (old :: rest)) x)
       = rest ++ [x].
Proof.
  intros VadFrame p streamer A n xs old x rest.
  split; [| split; [| split]].
  - apply (len_fold_append xs (Deque.empty n)). cbn; lia.
  - apply final_ring.
  - apply final_ring.
  - apply append_full.
Qed.

(** C2: in either state the engine changes state exactly when the count of
    voiced (when silent) or unvoiced (when triggered) entries of the ring
    exceeds [act_inact_ratio * num_padding_frames], the configured capacity,
    whatever the ring holds at that moment.  The occupancy is not what is
    multiplied: after one speech frame under the defaults the ring holds one
    entry, and one voiced entry exceeds 0.9 * 1, yet the engine is still
    silent. *)
Theorem C2_threshold_on_configured_capacity :
  forall (VadFrame : Type) (p : params VadFrame) (streamer : list bytes)
         (frame : bytes),
    let st := final_state p streamer in
    let rb := append (ring_buff st) (frame, is_speech p frame) in
    let threshold :=
      float_mul_int (act_inact_ratio p) (Z.of_nat (num_padding_frames p)) in
    triggered (fst (step p st frame)) =
      (if triggered st
       then negb (int_gt_float (Z.of_nat (num_unvoiced rb)) threshold)
       else int_gt_float (Z.of_nat (num_voiced rb)) threshold)
    /\ (let rb1 := ring_buff (final_state Demo.vad20 [Demo.loud]) in
        len rb1 = 1
        /\ int_gt_float (Z.of_nat (num_voiced rb1))
             (float_mul_int (act_inact_ratio Demo.vad20) (Z.of_nat (len rb1)))
           = true
        /\ triggered (final_state Demo.vad20 [Demo.loud]) = false).
Proof.
  intros VadFrame p streamer frame st rb threshold.
  split.
  - pose proof (final_ring p streamer) as [_ Hmax]. fold st in Hmax.
    unfold Vad.step. fold rb.
    unfold over_ratio. replace (maxlen rb) with (num_padding_frames p)
      by (unfold rb; rewrite maxlen_append; now rewrite Hmax).
    fold threshold.
    destruct (triggered st) eqn:T; cbn [negb];
      match goal with |- context [if ?c then _ else _] => destruct c end;
      cbn [fst triggered negb]; try rewrite T; reflexivity.
  - vm_compute. repeat split.
Qed.



(** C4: when the stream ends with the engine triggered, the segment in
    progress is not empty and is made of the last frames of the stream, and
    the generator has yielded exactly what it would have yielded had the
    stream ended before them: nothing was yielded for the segment, and the
    last item yielded, if any, is the [None] that closed an earlier one. *)
Theorem C4_no_flush_when_stream_ends :
  forall (VadFrame : Type) (p : params VadFrame) (streamer : list bytes),
    triggered (final_state p streamer) = true ->
    voiced_frames (final_state p streamer) <> []
    /\ (exists pre,
          streamer = pre ++ voiced_frames (final_state p streamer)
          /\ vad_collector p streamer = vad_collector p pre)
    /\ last (vad_collector p streamer) None = None.
Proof.
  intros VadFrame p streamer T.
  destruct (run_stands p streamer) as (pre & post & Hsplit & Hpre & Hpost & Hheld).
  rewrite T in Hheld. destruct Hheld as [Hne [m Hm]].
  split; [exact Hne |]. split.
  - exists (pre ++ m). split.
    + rewrite Hsplit, Hm at 1. now rewrite app_assoc.
    + unfold vad_collector at 2. rewrite run_app, Hpre; cbn [fst snd].
      rewrite Hm, run_app in Hpost.
      injection Hpost as _ Hout.
      apply app_eq_nil in Hout. destruct Hout as [Hout _].
      now rewrite Hout, app_nil_r.
  - destruct (run_framed p streamer (init p)) as (segs & Hout & _).
    unfold vad_collector. rewrite Hout. apply last_framed.
Qed.

(** Witness for C4: twenty-two speech frames under the defaults and the
    stream ends; nothing is yielded. *)
Lemma C4_witness :
  triggered (final_state Demo.vad20 (repeat Demo.loud 22)) = true
  /\ vad_collector Demo.vad20 (repeat Demo.loud 22) = []
  /\ voiced_frames (final_state Demo.vad20 (repeat Demo.loud 22)) <> [].
Proof.
  split; [vm_compute; reflexivity |].
  split; [vm_compute; reflexivity |].
  apply (C4_no_flush_when_stream_ends bytes Demo.vad20 (repeat Demo.loud 22)).
  vm_compute; reflexivity.
Defined.

(** Under the defaults the product [0.9 * 20] is the float [18.0]: a count
    exceeds it from nineteen on. *)
Lemma default_threshold : float_mul_int 0.9 (Z.of_nat 20) = 18%float.
Proof. vm_compute. reflexivity. Qed.

Lemma under_default_ratio (k : nat) :
  k <= 18 -> int_gt_float (Z.of_nat k) (float_mul_int 0.9 (Z.of_nat 20)) = false.
Proof.
  intros H.
  do 19 (destruct k as [| k]; [vm_compute; reflexivity |]).
  lia.
Qed.

Lemma over_default_ratio :
  int_gt_float (Z.of_nat 19) (float_mul_int 0.9 (Z.of_nat 20)) = true.
Proof. vm_compute. reflexivity. Qed.

Lemma split_last {A} (l : list A) (n : nat) :
  length l = S n -> exists l' x, l = l' ++ [x] /\ length l' = n.
Proof.
  intros H. destruct (exists_last (l := l)) as (l' & x & ->).
  - intros ->. discriminate.
  - exists l', x. split; [reflexivity |].
    rewrite length_app in H; cbn in H; lia.
Qed.

Lemma map_fst_pair {A B} (b : B) (l : list A) :
  map fst (map (fun a => (a, b)) l) = l.
Proof. induction l as [| a l IH]; cbn; [reflexivity | now rewrite IH]. Qed.

Lemma Forall_flag {A} (b : bool) (g : bool -> bool) (l : list A) :
  g b = true -> Forall (fun e : A * bool => g (snd e) = true) (map (fun a => (a, b)) l).
Proof. intros H. induction l; cbn; constructor; auto. Qed.

Section Defaults.

Context {VadFrame : Type} (p : params VadFrame).
Hypothesis Hcap : num_padding_frames p = 20.
Hypothesis Hratio : act_inact_ratio p = 0.9%float.

(** Up to eighteen speech frames leave the engine silent, all of them in
    the ring. *)
Lemma silent_up_to_18 (l : list bytes) :
  length l <= 18 ->
  Forall (fun f => is_speech p f = true) l ->
  run p (init p) l
  = ({| ring_buff := Deque.mk 20 (map (fun f => (f, true)) l);
        triggered := false; voiced_frames := [] |}, []).
Proof.
  intros Hlen Hall. unfold Vad.init, Deque.empty. rewrite Hcap.
  rewrite (fill_silent p 20 l [] []); try assumption.
  - reflexivity.
  - constructor.
  - cbn; lia.
  - intros k Hk. rewrite Hratio. apply under_default_ratio. cbn in Hk; lia.
Qed.

(** The nineteenth speech frame triggers, and the segment starts as the
    nineteen frames. *)
Lemma triggered_at_19 (speech : list bytes) :
  length speech = 19 ->
  Forall (fun f => is_speech p f = true) speech ->
  run p (init p) speech
  = ({| ring_buff := Deque.mk 20 []; triggered := true; voiced_frames := speech |}, []).
Proof.
  intros Hlen Hall.
  destruct (split_last speech 18 Hlen) as (l & f & -> & Hl).
  apply Forall_app in Hall. destruct Hall as [Hl_all Hf].
  inversion Hf as [| ? ? Hfs _]; subst.
  rewrite run_snoc, silent_up_to_18 by (assumption || lia); cbn [fst snd].
  unfold Vad.step; cbn [triggered negb ring_buff voiced_frames].
  rewrite Hfs, append_room by (rewrite length_map; lia).
  unfold over_ratio, num_voiced; cbn [items maxlen].
  rewrite (filter_all (fun e => snd e)).
  - rewrite length_app, length_map, Hl, Hratio; cbn [length Nat.add].
    change (18 + 1) with 19. rewrite over_default_ratio; cbn [fst snd clear maxlen].
    now rewrite map_app, map_fst_pair.
  - apply Forall_app; split; [| repeat constructor].
    apply (Forall_flag true (fun b => b)). reflexivity.
Qed.

(** Nineteen frames of silence then end the segment. *)
Lemma released_at_19 (vf silence : list bytes) :
  length silence = 19 ->
  Forall (fun f => is_speech p f = false) silence ->
  run p {| ring_buff := Deque.mk 20 []; triggered := true; voiced_frames := vf |} silence
  = (init p, [Some (join (vf ++ silence)); None]).
Proof.
  intros Hlen Hall.
  destruct (split_last silence 18 Hlen) as (l & f & -> & Hl).
  apply Forall_app in Hall. destruct Hall as [Hl_all Hf].
  inversion Hf as [| ? ? Hfs _]; subst.
  rewrite run_snoc, (fill_voiced p 20 l [] vf); try assumption.
  - cbn [fst snd List.app].
    unfold Vad.step; cbn [triggered negb ring_buff voiced_frames].
    rewrite Hfs, append_room by (rewrite length_map; lia).
    unfold over_ratio, num_unvoiced; cbn [items maxlen].
    rewrite (filter_all (fun e => negb (snd e))).
    + rewrite length_app, length_map, Hl, Hratio; cbn [length Nat.add].
      change (18 + 1) with 19. rewrite over_default_ratio; cbn [fst snd clear maxlen].
      unfold Vad.init, Deque.empty. rewrite Hcap. now rewrite app_assoc.
    + apply Forall_app; split; [| repeat constructor].
      apply (Forall_flag false negb). reflexivity.
  - constructor.
  - cbn; lia.
  - intros k Hk. rewrite Hratio. apply under_default_ratio. cbn in Hk; lia.
Qed.

End Defaults.

(** C1, as amended: with [num_padding_frames = 20] and
    [act_inact_ratio = 0.9] the count must exceed 0.9 * 20 = 18.0, so it is
    nineteen consecutive speech frames, fed from the initial silent state,
    that trigger the engine, exactly at the nineteenth: after any fewer it is
    still silent.  The segment then starts as those nineteen frames in their
    order; whatever follows, the first item yielded starts with their bytes,
    and after nineteen frames of silence the item yielded is the segment of
    all thirty-eight frames, followed by [None]. *)
Theorem C1_trigger_at_nineteenth_frame :
  forall (VadFrame : Type) (p : params VadFrame) (speech : list bytes),
    num_padding_frames p = 20 ->
    act_inact_ratio p = 0.9%float ->
    length speech = 19 ->
    Forall (fun f => is_speech p f = true) speech ->
    (forall k, k < 19 -> triggered (final_state p (firstn k speech)) = false)
    /\ triggered (final_state p speech) = true
    /\ voiced_frames (final_state p speech) = speech
    /\ (forall rest it out,
          vad_collector p (speech ++ rest) = it :: out ->
          exists tail, it = Some (join speech ++ tail))
    /\ (forall silence,
          length silence = 19 ->
          Forall (fun f => is_speech p f = false) silence ->
          vad_collector p (speech ++ silence)
          = [Some (join speech ++ join silence); None]).
Proof.
  intros VadFrame p speech Hcap Hratio Hlen Hall.
  pose proof (triggered_at_19 p Hcap Hratio speech Hlen Hall) as Hrun.
  split; [| split; [| split; [| split]]].
  - intros k Hk. unfold final_state.
    rewrite (silent_up_to_18 p Hcap Hratio).
    + reflexivity.
    + rewrite length_firstn. lia.
    + apply Forall_forall. intros f Hf.
      rewrite Forall_forall in Hall. apply Hall.
      rewrite <- (firstn_skipn k speech). apply in_or_app. now left.
  - unfold final_state. now rewrite Hrun.
  - unfold final_state. now rewrite Hrun.
  - intros rest it out Hout.
    unfold vad_collector in Hout. rewrite run_app, Hrun in Hout.
    cbn [fst snd List.app] in Hout.
    apply first_item_extends in Hout; [| reflexivity].
    exact Hout.
  - intros silence Hs Hsil.
    unfold vad_collector. rewrite run_app, Hrun; cbn [fst snd List.app].
    rewrite (released_at_19 p Hcap Hratio) by assumption.
    cbn [snd]. now rewrite join_app.
Qed.

(** Witness for C1: the defaults, nineteen frames the demo classifier calls
    speech, nineteen it calls silence. *)
Lemma C1_witness :
  triggered (final_state Demo.vad20 (repeat Demo.loud 19)) = true
  /\ voiced_frames (final_state Demo.vad20 (repeat Demo.loud 19)) = repeat Demo.loud 19
  /\ vad_collector Demo.vad20 (repeat Demo.loud 19 ++ repeat Demo.quiet 19)
     = [Some (join (repeat Demo.loud 19) ++ join (repeat Demo.quiet 19)); None].
Proof.
  assert (Hloud : Forall (fun f => is_speech Demo.vad20 f = true) (repeat Demo.loud 19)).
  { apply Forall_forall. intros f Hf. apply repeat_spec in Hf. now subst. }
  assert (Hquiet : Forall (fun f => is_speech Demo.vad20 f = false) (repeat Demo.quiet 19)).
  { apply Forall_forall. intros f Hf. apply repeat_spec in Hf. now subst. }
  destruct (C1_trigger_at_nineteenth_frame bytes Demo.vad20 (repeat Demo.loud 19)
              eq_refl eq_refl eq_refl Hloud) as (_ & Ht & Hv & _ & He).
  split; [exact Ht |]. split; [exact Hv |].
  apply He; [reflexivity | exact Hquiet].
Defined.

(** Counterexample to C1 as stated: under the defaults, eighteen consecutive
    speech frames fed from the initial state leave the engine silent (18 does
    not exceed 18.0), with all eighteen still in the ring. *)
Lemma C1_counterexample :
  num_padding_frames Demo.vad20 = 20
  /\ act_inact_ratio Demo.vad20 = 0.9%float
  /\ length (repeat Demo.loud 18) = 18
  /\ forallb (is_speech Demo.vad20) (repeat Demo.loud 18) = true
  /\ triggered (final_state Demo.vad20 (repeat Demo.loud 18)) = false
  /\ len (ring_buff (final_state Demo.vad20 (repeat Demo.loud 18))) = 18.
Proof. vm_compute. repeat split. Qed.

End VadFacts.

(** ** The response loop *)

Module RecognizerFacts.
Import Py Recognizer.

Section Facts.

Context {Batcher : Type}.
Variable get_batch : Batcher -> string -> bool -> option (list string) * Batcher.

Lemma selected_spec (r : response) : selected r = true <-> processed_spec r.
Proof.
  unfold selected, processed_spec.
  destruct (results r) as [| first rest] eqn:E; cbn [length].
  - split; [discriminate | intros [H _]; lia].
  - destruct rest as [| second rest]; cbn [length].
    + change (1 <? 1) with false; cbn [orb]. split.
      * intros H. split; [lia |]. right. exists first. now split.
      * intros [_ [H | (sole & Hs & Hf)]]; [lia |].
        injection Hs as ->. exact Hf.
    + change (1 <? S (S (length rest))) with true; cbn [orb]. split.
      * intros _. split; [lia | left; lia].
      * reflexivity.
Qed.

Lemma unselected_skips (tb : option Batcher) (r : response) :
  selected r = false -> handle_response Batcher get_batch tb r = skip Batcher tb.
Proof. intros H. unfold handle_response. now rewrite H. Qed.

Lemma selected_first (tb : option Batcher) (r : response) first rest :
  results r = first :: rest ->
  selected r = true ->
  handle_response Batcher get_batch tb r = handle_result Batcher get_batch tb first.
Proof. intros E H. unfold handle_response. now rewrite H, E. Qed.

Lemma skipped_in_stream (tb : option Batcher) (r : response) rs :
  selected r = false ->
  handle_responses Batcher get_batch tb (r :: rs)
  = handle_responses Batcher get_batch tb rs.
Proof.
  intros H. cbn [handle_responses]. rewrite (unselected_skips tb r H).
  cbn [raised skip text_batcher trace List.app].
  now destruct (handle_responses Batcher get_batch tb rs).
Qed.

End Facts.

(** C6: the condition of the loop selects a response exactly when the
    specification says it is processed: it has a result, and has several or
    its only one is final.  A selected response is handled through its first
    result; any other one (no result, or a single interim result) leaves the
    batcher as it was, with no call, no batch, no output and no exception,
    and is as if absent from the stream. *)
Theorem C6_processed_exactly_when_selected :
  forall (Batcher : Type)
         (get_batch : Batcher -> string -> bool -> option (list string) * Batcher)
         (tb : option Batcher) (r : response) (rs : list response),
    (selected r = true <-> processed_spec r)
    /\ (forall first rest, results r = first :: rest -> processed_spec r ->
          handle_response Batcher get_batch tb r
          = handle_result Batcher get_batch tb first)
    /\ (~ processed_spec r ->
          handle_response Batcher get_batch tb r
          = {| text_batcher := tb; trace := []; raised := None |}
          /\ handle_responses Batcher get_batch tb (r :: rs)
             = handle_responses Batcher get_batch tb rs).
Proof.
  intros Batcher get_batch tb r rs.
  pose proof (selected_spec r) as Hs.
  split; [exact Hs |]. split.
  - intros first rest E H. apply (selected_first get_batch tb r first rest E).
    now apply Hs.
  - intros H.
    assert (Hsel : selected r = false).
    { destruct (selected r); [exfalso; apply H; now apply Hs | reflexivity]. }
    split.
    + now apply unselected_skips.
    + now apply skipped_in_stream.
Qed.

(** Witness for C6: a response without results and one with a single interim
    result, in front of a final "hello", with a batcher that would answer
    every call. *)
Lemma C6_witness :
  ~ processed_spec Demo.no_results
  /\ ~ processed_spec Demo.one_interim
  /\ handle_response nat Demo.echo_batcher (Some 0) Demo.no_results
     = {| text_batcher := Some 0; trace := []; raised := None |}
  /\ handle_response nat Demo.echo_batcher (Some 0) Demo.one_interim
     = {| text_batcher := Some 0; trace := []; raised := None |}
  /\ handle_responses nat Demo.echo_batcher (Some 0)
       [Demo.one_interim; Demo.hello_final]
     = handle_responses nat Demo.echo_batcher (Some 0) [Demo.hello_final].
Proof.
  assert (H0 : ~ processed_spec Demo.no_results).
  { intros [H _]. cbn in H. lia. }
  assert (H1 : ~ processed_spec Demo.one_interim).
  { intros [_ [H | (sole & Hs & Hf)]].
    - cbn in H. lia.
    - cbn in Hs. injection Hs as <-. discriminate. }
  split; [exact H0 |]. split; [exact H1 |].
  destruct (C6_processed_exactly_when_selected nat Demo.echo_batcher (Some 0)
              Demo.no_results []) as (_ & _ & Hno).
  destruct (C6_processed_exactly_when_selected nat Demo.echo_batcher (Some 0)
              Demo.one_interim [Demo.hello_final]) as (_ & _ & Hone).
  split; [exact (proj1 (Hno H0)) |].
  split; [exact (proj1 (Hone H1)) | exact (proj2 (Hone H1))].
Defined.

(** C10: a selected response whose first result has no alternative is
    passed over: the batcher is not called and keeps its state,
    [process] is not called, nothing is printed and nothing is raised. *)
Theorem C10_no_alternative_no_effect :
  forall (Batcher : Type)
         (get_batch : Batcher -> string -> bool -> option (list string) * Batcher)
         (tb : option Batcher) (r : response)
         (first : recognition_result) (rest : list recognition_result),
    selected r = true ->
    results r = first :: rest ->
    alternatives first = [] ->
    handle_response Batcher get_batch tb r
    = {| text_batcher := tb; trace := []; raised := None |}.
Proof.
  intros Batcher get_batch tb r first rest Hsel E Halt.
  rewrite (selected_first get_batch tb r first rest E Hsel).
  unfold handle_result. now rewrite Halt.
Qed.

(** Witness for C10: two results, the first final and without alternative. *)
Lemma C10_witness :
  selected Demo.blank_first = true
  /\ handle_response nat Demo.echo_batcher (Some 0) Demo.blank_first
     = {| text_batcher := Some 0; trace := []; raised := None |}.
Proof.
  split; [reflexivity |].
  apply (C10_no_alternative_no_effect nat Demo.echo_batcher (Some 0)
           Demo.blank_first _ _ eq_refl eq_refl eq_refl).
Defined.

(** C5, as amended: without a batcher, the response whose only result is
    final with text "hello" and confidence 0.87 makes the loop call
    [process(["hello"], reset=True)] and then print the transcript between
    the "--Final--" header and the "---" footer, and nothing else.  The
    integer confidence it computes on the way is 87. *)
Theorem C5_final_hello_without_batcher :
  forall (Batcher : Type)
         (get_batch : Batcher -> string -> bool -> option (list string) * Batcher),
    handle_response Batcher get_batch None Demo.hello_final
    = {| text_batcher := None;
         trace := [Process ["hello"%string] true; Print (print_final "hello")];
         raised := None |}
    /\ percent 0.87 = Ok 87%Z
    /\ print_final "hello"
       = ("--Final--" ++ nl ++ " hello " ++ nl ++ "---" ++ nl ++ nl)%string.
Proof.
  intros Batcher get_batch.
  split; [| split].
  - unfold handle_response, Demo.hello_final; cbn [selected results length is_final].
    cbn [Nat.ltb Nat.leb orb handle_result alternatives transcript confidence is_final].
    replace (percent 0.87) with (Ok 87%Z) by (vm_compute; reflexivity).
    reflexivity.
  - vm_compute. reflexivity.
  - reflexivity.
Qed.

(** Counterexample to C5 as stated: at that input the only output is the
    line printed, and the digits 87 occur nowhere in it; the two events of
    the trace are all there is, and neither carries the confidence. *)
Lemma C5_counterexample :
  trace (handle_response unit (fun b _ _ => (None, b)) None Demo.hello_final)
  = [Process ["hello"%string] true; Print (print_final "hello")]
  /\ percent 0.87 = Ok 87%Z
  /\ String.index 0 "87" (print_final "hello") = None
  /\ String.index 0 "hello" (print_final "hello") = Some 11.
Proof. vm_compute. repeat split. Qed.

End RecognizerFacts.

(** ** Binary64 facts the conversions rest on *)

Module FloatFacts.
Import Py.
Local Open Scope Z_scope.




















End FloatFacts.

(** ** The sample-format conversions *)

Module ConvertFacts.
Import Py Numpy Convert.

Lemma traverse_map {A B C} (g : A -> B) (f : B -> option C) (l : list A) :
  traverse f (map g l) = traverse (fun a => f (g a)) l.
Proof.
  induction l as [| a l IH]; cbn [map traverse]; [reflexivity |].
  now rewrite IH.
Qed.

Lemma traverse_ext {A B} (f g : A -> option B) (l : list A) :
  (forall a, f a = g a) -> traverse f l = traverse g l.
Proof.
  intros H. induction l as [| a l IH]; cbn [traverse]; [reflexivity |].
  now rewrite H, IH.
Qed.








(** Beyond 32 bits the upper bound is no float: at 64 bits [clip] compares
    with [2^63], leaves a product of [2^63] as it is, and the answer is the
    build's, where the specification clamps to [2^63-1]. *)
Lemma float2int_at_64_bits_is_the_builds (invalid : int_dtype -> float -> Z) :
  float2int_array invalid [1%float] int64 = [invalid int64 (float_of_Z (2 ^ 63))]
  /\ trunc (float_of_Z (2 ^ 63)) = Some (2 ^ 63)%Z
  /\ floatToInt trunc [1%float] 64 = Some [(2 ^ 63 - 1)%Z].
Proof.
  split; [| split]; vm_compute; reflexivity.
Qed.

(** A NaN sample goes through the product and the clamp, and the answer is
    the build's. *)
Lemma float2int_of_nan_is_the_builds (invalid : int_dtype -> float -> Z)
    (t : int_dtype) :
  float2int_array invalid [PrimFloat.nan] t = [invalid t PrimFloat.nan].
Proof.
  destruct t; vm_compute; reflexivity.
Qed.

(** An unsigned type clamps to [[0, 2^b-1]], not to the range the
    specification gives for the bit depth: half of full scale below zero
    becomes 0 at [uint8], and -64 by the specification. *)
Lemma float2int_unsigned_clamps_at_zero (invalid : int_dtype -> float -> Z) :
  float2int_array invalid [(-0.5)%float] uint8 = [0%Z]
  /\ floatToInt trunc [(-0.5)%float] 8 = Some [(-64)%Z].
Proof. split; vm_compute; reflexivity. Qed.

(** On an x86-64 build those answers are [-2^63], and 0 at 16 bits. *)
Lemma x86_answers :
  Demo.x86_invalid int64 (float_of_Z (2 ^ 63)) = (- 2 ^ 63)%Z
  /\ Demo.x86_invalid int16 PrimFloat.nan = 0%Z.
Proof. vm_compute. split; reflexivity. Qed.




(** C7: [audio_resample] never returns.  Whatever the arguments, the call
    ends in an exception: once [data] is read, line 15 looks up [self], which
    neither the function nor the module binds, and raises [NameError]; the
    only other outcome is the exception [np.frombuffer] raised before. *)
Theorem C7_resample_raises_name_error :
  forall (DType : Type) (frombuffer : bytes -> DType -> result farray)
         (tobytes : DType -> farray -> bytes) (array_buffer : farray -> bytes)
         (signal_resample : farray -> Z -> farray)
         (data : audio float) (sample_rate resample_rate : Z)
         (dtype : option DType),
    audio_resample DType frombuffer tobytes array_buffer signal_resample
      data sample_rate resample_rate None
    = Raise (NameError "self")
    /\ (exists e,
          audio_resample DType frombuffer tobytes array_buffer signal_resample
            data sample_rate resample_rate dtype
          = Raise e)
    /\ audio_resample DType frombuffer tobytes array_buffer signal_resample
         (Arr [0; 0; 0; 0]%float) 16000 8000 None
       = Raise (NameError "self").
Proof.
  intros DType frombuffer tobytes array_buffer signal_resample
         data sample_rate resample_rate dtype.
  split; [reflexivity |]. split; [| reflexivity].
  unfold audio_resample.
  destruct dtype as [d |]; cbn [bind].
  - destruct (frombuffer (buffer_of array_buffer data) d) as [a | e]; cbn [bind].
    + eexists; reflexivity.
    + exists e; reflexivity.
  - eexists; reflexivity.
Qed.

End ConvertFacts.

(** ** The audio streamer *)

Module StreamerFacts.
Import Py Streamer.

Lemma run_snoc_action (s : streamer) (schedule : list action) (a : action) :
  run s (schedule ++ [a]) = act (run s schedule) a.
Proof. unfold run. now rewrite fold_left_app. Qed.

Lemma run_app_schedule (s : streamer) (a b : list action) :
  run s (a ++ b) = run (run s a) b.
Proof. unfold run. now rewrite fold_left_app. Qed.

Lemma filled_app (a b : list action) : filled (a ++ b) = filled a ++ filled b.
Proof.
  induction a as [| x a IH]; [reflexivity |].
  destruct x; cbn [List.app filled]; now rewrite IH.
Qed.

Lemma chunks_app (a b : list (option bytes)) : chunks (a ++ b) = chunks a ++ chunks b.
Proof.
  induction a as [| x a IH]; [reflexivity |].
  destruct x; cbn [List.app chunks]; now rewrite IH.
Qed.

Lemma join_snoc (l : list bytes) (c : bytes) : join (l ++ [c]) = join l ++ c.
Proof. unfold join. rewrite concat_app. cbn. now rewrite app_nil_r. Qed.

Lemma conserved_prefix (schedule : list action) (s : streamer) :
  conserved schedule s -> exists rest, join (filled schedule) = join (yielded s) ++ rest.
Proof.
  unfold conserved. destruct (at_ s); intros H; try exact H; eexists; exact H.
Qed.

Lemma join_one (c : bytes) : join [c] = c.
Proof. unfold join. cbn. now rewrite app_nil_r. Qed.

Lemma join_cons (c : bytes) (l : list bytes) : join (c :: l) = c ++ join l.
Proof. reflexivity. Qed.

Lemma act_conserved (schedule : list action) (s : streamer) (a : action) :
  conserved schedule s -> conserved (schedule ++ [a]) (act s a).
Proof.
  intros H. pose proof (conserved_prefix schedule s H) as [rest Hrest].
  destruct s as [q c pos y]. unfold conserved, in_hand in *.
  cbn [at_ yielded buff closed] in *.
  rewrite filled_app, VadFacts.join_app.
  destruct a; cbn [act next filled at_ yielded buff closed];
    rewrite ?join_one; cbn [join List.concat]; rewrite ?app_nil_r.
  - exact H.
  - destruct pos; rewrite ?chunks_app, ?VadFacts.join_app; cbn [chunks];
      rewrite ?join_one; try (rewrite H; now rewrite <- !app_assoc).
    exists (rest ++ in_data). rewrite Hrest. now rewrite <- app_assoc.
  - exact H.
  - destruct pos; rewrite ?chunks_app, ?VadFacts.join_app; cbn [chunks join List.concat];
      rewrite ?app_nil_r; exact H.
  - unfold next; cbn [at_ yielded buff closed]. destruct pos as [| | data |].
    + destruct c; cbn [at_ yielded buff]; [exists rest; exact Hrest | exact H].
    + destruct q as [| [ch |] q]; cbn [at_ yielded buff chunks] in *.
      * exact H.
      * rewrite H, join_one, join_cons. reflexivity.
      * exists rest. exact Hrest.
    + destruct q as [| [ch |] q]; cbn [at_ yielded buff chunks] in *.
      * rewrite H, join_snoc. cbn [join List.concat]. now rewrite !app_nil_r.
      * rewrite H, join_snoc, join_cons. now rewrite <- !app_assoc.
      * exists rest. exact Hrest.
    + exists rest. exact Hrest.
Qed.

Lemma run_conserved (schedule : list action) : conserved schedule (run init schedule).
Proof.
  induction schedule as [| a schedule IH] using rev_ind.
  - reflexivity.
  - rewrite run_snoc_action. now apply act_conserved.
Qed.

Lemma returned_stays (schedule : list action) : forall s,
  at_ s = Returned ->
  at_ (run s schedule) = Returned /\ yielded (run s schedule) = yielded s.
Proof.
  induction schedule as [| a schedule IH]; intros s H; [now split |].
  cbn [run fold_left]. fold (run (act s a) schedule).
  assert (Ha : at_ (act s a) = Returned /\ yielded (act s a) = yielded s).
  { destruct a; cbn [act at_ yielded]; try (now split).
    unfold next. rewrite H. now split. }
  destruct Ha as [Ha1 Ha2].
  destruct (IH (act s a) Ha1) as [H1 H2]. split; congruence.
Qed.

Lemma never_entered (schedule : list action) :
  forallb (fun a => negb (entered a)) schedule = true ->
  closed (run init schedule) = true
  /\ yielded (run init schedule) = []
  /\ (at_ (run init schedule) = Head \/ at_ (run init schedule) = Returned).
Proof.
  induction schedule as [| a schedule IH] using rev_ind; intros H.
  - cbn. auto.
  - rewrite forallb_app in H. apply andb_prop in H. destruct H as [H Ha].
    destruct (IH H) as (Hc & Hy & Hat). rewrite run_snoc_action.
    set (s := run init schedule) in *.
    destruct a; cbn [act closed yielded at_]; try discriminate Ha; auto.
    unfold next. destruct Hat as [-> | ->]; cbn [closed yielded at_]; auto.
    rewrite Hc. auto.
Qed.

(** Chunks delivered cover the items yielded and the chunks in hand or
    queued, one for one; a drain holds at least one chunk. *)
Lemma act_counted (schedule : list action) (s : streamer) (a : action) :
  length (yielded s) + length (in_hand s) + length (chunks (buff s))
    <= length (filled schedule)
  /\ (forall data, at_ s = Draining data -> data <> []) ->
  length (yielded (act s a)) + length (in_hand (act s a))
    + length (chunks (buff (act s a)))
    <= length (filled (schedule ++ [a]))
  /\ (forall data, at_ (act s a) = Draining data -> data <> []).
Proof.
  intros [Hn Hd]. destruct s as [q c pos y]. unfold in_hand in *.
  cbn [at_ yielded buff closed] in *. rewrite filled_app, length_app.
  destruct a; cbn [act filled at_ yielded buff closed length];
    rewrite ?chunks_app, ?length_app; cbn [chunks length];
    try (split; [lia | exact Hd]).
  unfold next; cbn [at_ yielded buff closed]. destruct pos as [| | data |].
  - destruct c; cbn [at_ yielded buff]; split; try lia; discriminate.
  - destruct q as [| [ch |] q]; cbn [at_ yielded buff chunks length] in *.
    + split; [lia | discriminate].
    + split; [lia |]. intros data H. injection H as <-. discriminate.
    + split; [lia | discriminate].
  - specialize (Hd data eq_refl).
    destruct q as [| [ch |] q]; cbn [at_ yielded buff chunks length] in *.
    + split; [| discriminate]. rewrite length_app. cbn [length].
      destruct data; [congruence | cbn [length] in *; lia].
    + split; [rewrite length_app; cbn [length]; lia |].
      intros d H. injection H as <-. destruct data; discriminate.
    + split; [lia | discriminate].
  - cbn [at_ yielded buff length]. split; [lia | discriminate].
Qed.

Lemma run_counted (schedule : list action) :
  length (yielded (run init schedule)) + length (in_hand (run init schedule))
    + length (chunks (buff (run init schedule)))
    <= length (filled schedule)
  /\ (forall data, at_ (run init schedule) = Draining data -> data <> []).
Proof.
  induction schedule as [| a schedule IH] using rev_ind.
  - cbn. split; [lia | discriminate].
  - rewrite run_snoc_action. now apply act_counted.
Qed.

(** X1: whatever the order in which the callback, [__enter__], [__exit__]
    and the consumer run, the bytes [stream()] has yielded, put end to end,
    are the beginning of the audio the callback delivered, in its order:
    nothing is reordered, repeated or made up. *)
Theorem stream_yields_prefix_of_audio :
  forall schedule : list action,
    exists rest,
      join (filled schedule) = join (yielded (run init schedule)) ++ rest.
Proof.
  intros schedule. apply conserved_prefix, run_conserved.
Qed.

(** X2: until the generator returns no audio is lost: what the callback
    delivered is what was yielded, then the chunks of the drain under way,
    then the chunks still queued.  With the generator between two drains and
    the queue empty, all of it has been yielded. *)
Theorem stream_loses_nothing_before_return :
  forall schedule : list action,
    at_ (run init schedule) <> Returned ->
    join (filled schedule)
    = join (yielded (run init schedule))
      ++ join (in_hand (run init schedule))
      ++ join (chunks (buff (run init schedule)))
    /\ (in_hand (run init schedule) = [] -> buff (run init schedule) = [] ->
        join (yielded (run init schedule)) = join (filled schedule)).
Proof.
  intros schedule H. pose proof (run_conserved schedule) as Hc.
  unfold conserved in Hc.
  assert (Heq : join (filled schedule)
                = join (yielded (run init schedule))
                  ++ join (in_hand (run init schedule))
                  ++ join (chunks (buff (run init schedule)))).
  { destruct (at_ (run init schedule)); try exact Hc. congruence. }
  split; [exact Heq |].
  intros Hh Hb. rewrite Heq, Hh, Hb. cbn. now rewrite app_nil_r.
Qed.

(** Witness for X2: two chunks delivered and drained together, a third
    delivered after the yield. *)
Lemma stream_loses_nothing_witness :
  at_ (run init [Enter; Fill Demo.loud; Fill Demo.quiet; Next; Next; Next; Next;
                 Fill Demo.loud]) <> Returned
  /\ yielded (run init [Enter; Fill Demo.loud; Fill Demo.quiet; Next; Next; Next;
                        Next; Fill Demo.loud])
     = [Demo.loud ++ Demo.quiet]
  /\ join [Demo.loud; Demo.quiet; Demo.loud]
     = join [Demo.loud ++ Demo.quiet] ++ join [] ++ join [Demo.loud].
Proof.
  split; [discriminate |]. split; [reflexivity |].
  apply (stream_loses_nothing_before_return
           [Enter; Fill Demo.loud; Fill Demo.quiet; Next; Next; Next; Next;
            Fill Demo.loud]).
  discriminate.
Defined.

(** X3: a streamer is created closed; consumed without [__enter__] having
    run, [stream()] yields nothing, whatever audio is delivered. *)
Theorem stream_never_entered_yields_nothing :
  forall schedule : list action,
    forallb (fun a => negb (entered a)) schedule = true ->
    yielded (run init schedule) = [].
Proof.
  intros schedule H. now destruct (never_entered schedule H) as (_ & Hy & _).
Qed.

(** Witness for X3: audio delivered and the generator consumed, no [Enter]. *)
Lemma stream_never_entered_witness :
  forallb (fun a => negb (entered a)) [Fill Demo.loud; Next; Fill Demo.quiet; Next; Next]
  = true
  /\ yielded (run init [Fill Demo.loud; Next; Fill Demo.quiet; Next; Next]) = [].
Proof.
  split; [reflexivity |].
  apply (stream_never_entered_yields_nothing
           [Fill Demo.loud; Next; Fill Demo.quiet; Next; Next]).
  reflexivity.
Defined.

(** X5: the chunks of a drain that meets the sentinel are dropped: when the
    generator, with chunks in hand, finds the sentinel at the head of the
    queue, it returns, and those chunks are yielded neither then nor later. *)
Theorem stream_drops_drain_at_sentinel :
  forall (schedule later : list action) (data : list bytes)
         (q : list (option bytes)),
    at_ (run init schedule) = Draining data ->
    buff (run init schedule) = None :: q ->
    data <> []
    /\ at_ (run init (schedule ++ [Next])) = Returned
    /\ yielded (run init (schedule ++ Next :: later)) = yielded (run init schedule).
Proof.
  intros schedule later data q Hat Hq.
  destruct (run_counted schedule) as [_ Hd].
  split; [exact (Hd data Hat) |].
  assert (Hnext : at_ (next (run init schedule)) = Returned
                  /\ yielded (next (run init schedule)) = yielded (run init schedule)).
  { unfold next. rewrite Hat, Hq. now split. }
  destruct Hnext as [Hr Hy].
  split.
  - rewrite run_snoc_action. exact Hr.
  - change (schedule ++ Next :: later) with (schedule ++ [Next] ++ later).
    rewrite app_assoc, run_app_schedule, run_snoc_action.
    destruct (returned_stays later _ Hr) as [_ H2].
    cbn [act]. now rewrite H2.
Qed.

(** Witness for X5: a chunk is taken off the queue, then [__exit__] queues
    the sentinel before the drain sees the queue empty. *)
Lemma stream_drops_drain_witness :
  at_ (run init [Enter; Fill Demo.loud; Next; Next; Close; Sentinel])
  = Draining [Demo.loud]
  /\ yielded (run init ([Enter; Fill Demo.loud; Next; Next; Close; Sentinel]
                        ++ Next :: [Next; Next]))
     = [].
Proof.
  split; [reflexivity |].
  apply (stream_drops_drain_at_sentinel
           [Enter; Fill Demo.loud; Next; Next; Close; Sentinel] [Next; Next]
           [Demo.loud] []); reflexivity.
Defined.

(** X6: every item yielded coalesces at least one chunk, and a chunk goes
    into one item only: [stream()] never yields more items than the callback
    delivered chunks. *)
Theorem stream_items_at_most_chunks :
  forall schedule : list action,
    length (yielded (run init schedule)) <= length (filled schedule).
Proof.
  intros schedule. destruct (run_counted schedule) as [H _]. lia.
Qed.

End StreamerFacts.

(** ** More on the ring buffer and the segmentation engine *)

Module VadMore.
Import Py Deque Vad DequeFacts VadFacts.

Lemma tl_skipn {A} (k : nat) (l : list A) : tl (skipn k l) = skipn (S k) l.
Proof.
  revert l; induction k as [| k IH]; intros l.
  - destruct l; reflexivity.
  - destruct l as [| a l]; [reflexivity |]. cbn [skipn]. rewrite IH.
    destruct l; reflexivity.
Qed.

(** X7: a [deque(maxlen=n)] filled from empty is a sliding window: after any
    sequence of [append]s it holds the last [n] elements appended, in their
    order (all of them while there are fewer than [n], none when [n = 0]). *)
Theorem deque_holds_last_maxlen :
  forall (A : Type) (n : nat) (xs : list A),
    items (fold_left append xs (Deque.empty n)) = skipn (length xs - n) xs
    /\ len (fold_left append xs (Deque.empty n)) = Nat.min n (length xs).
Proof.
  intros A n xs.
  assert (H : items (fold_left append xs (Deque.empty n)) = skipn (length xs - n) xs
              /\ maxlen (fold_left append xs (Deque.empty n)) = n).
  { induction xs as [| x xs IH] using rev_ind.
    - split; reflexivity.
    - rewrite fold_left_app. cbn [fold_left].
      destruct IH as [Hi Hm]. split; [| now rewrite maxlen_append].
      unfold append at 1. cbn [items]. rewrite Hi, Hm.
      rewrite !length_app, length_skipn. cbn [length].
      destruct (Nat.ltb_spec n (length xs - (length xs - n) + 1)) as [Hlt | Hge].
      + replace (skipn (length xs - n) xs ++ [x])
          with (skipn (length xs - n) (xs ++ [x])).
        * rewrite tl_skipn. f_equal. lia.
        * rewrite skipn_app.
          replace (length xs - n - length xs) with 0 by lia. reflexivity.
      + replace (length xs - n) with 0 by lia.
        replace (length xs + 1 - n) with 0 by lia. reflexivity. }
  destruct H as [Hi _]. split; [exact Hi |].
  unfold len. rewrite Hi, length_skipn. lia.
Qed.

Lemma run_from_init {VadFrame : Type} (p : params VadFrame) (a b : list bytes) :
  final_state p a = init p ->
  vad_collector p (a ++ b) = vad_collector p a ++ vad_collector p b.
Proof.
  intros H. unfold vad_collector, final_state in *.
  rewrite run_app. cbn [snd]. now rewrite H.
Qed.

(** X9: the frame that ends a segment leaves the engine exactly as it
    started, ring empty: nothing of a segment or of what preceded it
    carries over, and what is yielded afterwards is what the rest of the
    stream would yield on its own. *)
Theorem vad_restarts_after_segment :
  forall (VadFrame : Type) (p : params VadFrame) (streamer : list bytes)
         (frame : bytes) (rest : list bytes),
    triggered (final_state p streamer) = true ->
    triggered (final_state p (streamer ++ [frame])) = false ->
    final_state p (streamer ++ [frame]) = init p
    /\ vad_collector p (streamer ++ [frame] ++ rest)
       = vad_collector p streamer
         ++ framed (voiced_frames (final_state p streamer) ++ [frame])
         ++ vad_collector p rest.
Proof.
  intros VadFrame p streamer frame rest T F.
  pose proof (final_ring p streamer) as [_ Hmax].
  unfold final_state in *. rewrite run_snoc in F |- *. cbn [fst] in F |- *.
  set (st := fst (run p (init p) streamer)) in *.
  assert (Hstep : step p st frame
                  = (init p, framed (voiced_frames st ++ [frame]))).
  { unfold Vad.step in F |- *. rewrite T in F |- *. cbn [negb] in F |- *.
    destruct (over_ratio p _ _); cbn [fst triggered] in F.
    - unfold Vad.init, clear, Deque.empty. cbn [maxlen append].
      now rewrite Hmax.
    - congruence. }
  rewrite Hstep. cbn [fst]. split; [reflexivity |].
  rewrite app_assoc. rewrite run_from_init.
  - unfold vad_collector at 1. rewrite run_snoc. fold st. rewrite Hstep.
    cbn [snd]. unfold vad_collector at 1. fold st. now rewrite <- app_assoc.
  - unfold final_state. rewrite run_snoc. fold st. now rewrite Hstep.
Qed.

(** Witness for X9: under the defaults, nineteen speech frames and eighteen
    of silence, then the frame of silence that ends the segment. *)
Lemma vad_restarts_witness :
  triggered (final_state Demo.vad20 (repeat Demo.loud 19 ++ repeat Demo.quiet 18)) = true
  /\ final_state Demo.vad20
       ((repeat Demo.loud 19 ++ repeat Demo.quiet 18) ++ [Demo.quiet])
     = init Demo.vad20.
Proof.
  split; [vm_compute; reflexivity |].
  apply (vad_restarts_after_segment bytes Demo.vad20
           (repeat Demo.loud 19 ++ repeat Demo.quiet 18) Demo.quiet []);
    vm_compute; reflexivity.
Defined.

Lemma zero_capacity_run {VadFrame : Type} (p : params VadFrame) (l : list bytes) :
  num_padding_frames p = 0 -> run p (init p) l = (init p, []).
Proof.
  intros H. induction l as [| f l IH]; [reflexivity |].
  cbn [Vad.run].
  assert (Hs : step p (init p) f = (init p, [])).
  { unfold Vad.step, Vad.init, Deque.empty, over_ratio, num_voiced, append.
    rewrite H. cbn [triggered negb ring_buff items maxlen List.app length Nat.ltb
                    Nat.leb tl filter].
    change (Z.of_nat 0) with 0%Z. now rewrite never_over_zero. }
  rewrite Hs, IH. reflexivity.
Qed.

(** X10: with [num_padding_frames = 0] the ring holds nothing and the
    engine never triggers: no stream yields anything, whatever the ratio and
    the classifier. *)
Theorem vad_zero_capacity_yields_nothing :
  forall (VadFrame : Type) (p : params VadFrame) (streamer : list bytes),
    num_padding_frames p = 0 ->
    vad_collector p streamer = []
    /\ final_state p streamer = init p.
Proof.
  intros VadFrame p streamer H. unfold vad_collector, final_state.
  now rewrite (zero_capacity_run p streamer H).
Qed.

(** Witness for X10: no padding frame, a negative ratio, everything speech. *)
Lemma vad_zero_capacity_witness :
  vad_collector
    {| vad_is_speech := fun (_ : bytes) _ => true; sample_rate := 16000;
       num_padding_frames := 0; act_inact_ratio := (-1)%float;
       frame_dtype_conv_fn := fun f => f |}
    (repeat Demo.loud 5) = [].
Proof.
  apply (vad_zero_capacity_yields_nothing bytes
           {| vad_is_speech := fun (_ : bytes) _ => true; sample_rate := 16000;
              num_padding_frames := 0; act_inact_ratio := (-1)%float;
              frame_dtype_conv_fn := fun f => f |}
           (repeat Demo.loud 5)).
  reflexivity.
Defined.

Lemma filter_none {A} (g : A -> bool) (l : list A) :
  Forall (fun e => g e = false) l -> filter g l = [].
Proof.
  induction 1 as [| e l He _ IH]; cbn; [reflexivity |].
  now rewrite He.
Qed.

Lemma Forall_tl {A} (P : A -> Prop) (l : list A) : Forall P l -> Forall P (tl l).
Proof. intros H. destruct H; [constructor | assumption]. Qed.

Lemma silence_run {VadFrame : Type} (p : params VadFrame) (l : list bytes) :
  forall st,
    triggered st = false ->
    Forall (fun e => snd e = false) (items (ring_buff st)) ->
    int_gt_float 0
      (float_mul_int (act_inact_ratio p) (Z.of_nat (maxlen (ring_buff st)))) = false ->
    Forall (fun f => is_speech p f = false) l ->
    snd (run p st l) = [] /\ triggered (fst (run p st l)) = false.
Proof.
  induction l as [| f l IH]; intros st T Hring Hthr Hl; [now split |].
  inversion Hl as [| ? ? Hf Hl']; subst.
  cbn [Vad.run].
  set (rb := append (ring_buff st) (f, false)).
  assert (Hrb : Forall (fun e => snd e = false) (items rb)).
  { unfold rb, append. cbn [items].
    assert (Hall : Forall (fun e : bytes * bool => snd e = false)
                     (items (ring_buff st) ++ [(f, false)])).
    { apply Forall_app. split; [exact Hring | repeat constructor]. }
    destruct (maxlen (ring_buff st) <? _); [now apply Forall_tl | exact Hall]. }
  assert (Hs : step p st f
               = ({| ring_buff := rb; triggered := false;
                     voiced_frames := voiced_frames st |}, [])).
  { unfold Vad.step. rewrite T, Hf. cbn [negb]. fold rb.
    unfold over_ratio, num_voiced.
    rewrite (filter_none (fun e => snd e) _ Hrb). cbn [length].
    change (Z.of_nat 0) with 0%Z.
    replace (maxlen rb) with (maxlen (ring_buff st)) by reflexivity.
    now rewrite Hthr. }
  rewrite Hs.
  destruct (IH {| ring_buff := rb; triggered := false;
                  voiced_frames := voiced_frames st |} eq_refl Hrb Hthr Hl')
    as [Hout Htr].
  destruct (run p _ l) as [st2 out2]. cbn [fst snd] in *. now subst.
Qed.

(** X11: a stream in which the classifier finds no speech yields nothing and
    leaves the engine silent, provided the threshold
    [act_inact_ratio * num_padding_frames] is not negative (a count of zero
    does not exceed it). *)
Theorem vad_no_speech_yields_nothing :
  forall (VadFrame : Type) (p : params VadFrame) (streamer : list bytes),
    int_gt_float 0
      (float_mul_int (act_inact_ratio p) (Z.of_nat (num_padding_frames p))) = false ->
    Forall (fun f => is_speech p f = false) streamer ->
    vad_collector p streamer = []
    /\ triggered (final_state p streamer) = false.
Proof.
  intros VadFrame p streamer Hthr Hall.
  unfold vad_collector, final_state.
  apply silence_run; try assumption; try reflexivity. constructor.
Qed.

(** Witness for X11: fifty frames of silence under the defaults. *)
Lemma vad_no_speech_witness :
  vad_collector Demo.vad20 (repeat Demo.quiet 50) = [].
Proof.
  apply (vad_no_speech_yields_nothing bytes Demo.vad20 (repeat Demo.quiet 50)).
  - vm_compute. reflexivity.
  - apply Forall_forall. intros f Hf. apply repeat_spec in Hf. now subst.
Defined.

Lemma run_sliced {VadFrame : Type} (p : params VadFrame) (streamer : list bytes) :
  exists (slices : list (list bytes * list bytes)) (tail : list bytes),
    streamer = flat_map (fun gs => fst gs ++ snd gs) slices ++ tail
    /\ vad_collector p streamer = flat_map (fun gs => framed (snd gs)) slices
    /\ (if triggered (final_state p streamer)
        then exists m, tail = m ++ voiced_frames (final_state p streamer)
        else voiced_frames (final_state p streamer) = []
             /\ exists m,
                  tail = m ++ map fst (items (ring_buff (final_state p streamer)))).
Proof.
  induction streamer as [| f streamer IH] using rev_ind.
  - exists [], []. cbn. repeat split. exists []. reflexivity.
  - destruct IH as (slices & tail & Hsplit & Hout & Hheld).
    pose proof (append_suffix (ring_buff (final_state p streamer)) f (is_speech p f))
      as [h Hh].
    unfold final_state, vad_collector in *. rewrite run_snoc. cbn [fst snd].
    set (st := fst (run p (init p) streamer)) in *.
    destruct (step p st f) as [st1 out1] eqn:Hs. cbn [fst snd].
    unfold Vad.step in Hs.
    destruct (triggered st) eqn:T; cbn [negb] in Hs.
    + destruct Hheld as [m Hm].
      destruct (over_ratio p _ _); injection Hs as <- <-.
      * exists (slices ++ [(m, voiced_frames st ++ [f])]), [].
        cbn [triggered voiced_frames ring_buff clear items map].
        rewrite !flat_map_app. cbn [flat_map fst snd]. rewrite !app_nil_r.
        split; [| split].
        -- rewrite Hsplit, Hm. now rewrite <- !app_assoc.
        -- now rewrite Hout.
        -- split; [reflexivity | exists []; reflexivity].
      * exists slices, (tail ++ [f]). cbn [triggered voiced_frames].
        split; [| split].
        -- rewrite Hsplit. now rewrite <- app_assoc.
        -- rewrite Hout. now rewrite app_nil_r.
        -- exists m. rewrite Hm. now rewrite <- app_assoc.
    + destruct Hheld as [Hnil [m Hm]].
      destruct (over_ratio p _ _); injection Hs as <- <-;
        cbn [triggered voiced_frames ring_buff];
        exists slices, (tail ++ [f]);
        (split; [rewrite Hsplit; now rewrite <- app_assoc |]);
        (split; [rewrite Hout; now rewrite app_nil_r |]).
      * exists (m ++ h). rewrite Hnil. cbn [List.app].
        rewrite Hm, <- !app_assoc. now rewrite Hh.
      * split; [exact Hnil |].
        exists (m ++ h). rewrite Hm, <- !app_assoc. now rewrite Hh.
Qed.

(** X12: the segments yielded are slices of the stream that follow one
    another without overlap: the stream is a run of frames dropped in
    silence, the frames of the first segment, frames dropped again, the
    frames of the second segment, and so on, and then a tail not yielded
    (yet).  No frame is yielded twice, out of order, or from elsewhere. *)
Theorem vad_segments_are_successive_slices :
  forall (VadFrame : Type) (p : params VadFrame) (streamer : list bytes),
    exists (slices : list (list bytes * list bytes)) (tail : list bytes),
      streamer = flat_map (fun gs => fst gs ++ snd gs) slices ++ tail
      /\ vad_collector p streamer
         = flat_map (fun gs => [Some (join (snd gs)); None]) slices.
Proof.
  intros VadFrame p streamer.
  destruct (run_sliced p streamer) as (slices & tail & H1 & H2 & _).
  exists slices, tail. split; [exact H1 | exact H2].
Qed.





Section DefaultSegments.

Context {VadFrame : Type} (p : params VadFrame).
Hypothesis Hcap : num_padding_frames p = 20.
Hypothesis Hratio : act_inact_ratio p = 0.9%float.




End DefaultSegments.



End VadMore.

(** ** More on the response loop *)

Module RecognizerMore.
Import Py Recognizer RecognizerFacts.

Lemma percent_nan (c : float) :
  is_nan c = true ->
  percent c = Raise (ValueError "cannot convert float NaN to integer").
Proof.
  unfold is_nan, percent, int_of_float. intros H.
  rewrite mul_spec. destruct (Prim2SF c); try discriminate H.
  unfold SF64mul, SFmul. now destruct (Prim2SF (float_of_Z 100)).
Qed.

Lemma percent_inf (c : float) :
  is_inf c = true ->
  percent c = Raise (OverflowError "cannot convert float infinity to integer").
Proof.
  unfold is_inf, percent, int_of_float. intros H.
  rewrite mul_spec.
  replace (Prim2SF (float_of_Z 100)) with (S754_finite false 7036874417766400 (-46))
    by (vm_compute; reflexivity).
  destruct (Prim2SF c); try discriminate H. reflexivity.
Qed.

(** X15: a confidence that is a NaN, or an infinity, makes [int()] raise
    ([ValueError], [OverflowError]) before anything else is done with the
    response: the batcher is not called, nothing is processed or printed,
    and the loop ends there, whatever follows. *)
Theorem bad_confidence_raises_before_any_call :
  forall (Batcher : Type)
         (get_batch : Batcher -> string -> bool -> option (list string) * Batcher)
         (tb : option Batcher) (r : response) (later : list response)
         (first : recognition_result) (rest : list recognition_result)
         (alt : alternative) (alts : list alternative),
    selected r = true ->
    results r = first :: rest ->
    alternatives first = alt :: alts ->
    is_nan (confidence alt) || is_inf (confidence alt) = true ->
    exists e,
      e = (if is_nan (confidence alt)
           then ValueError "cannot convert float NaN to integer"
           else OverflowError "cannot convert float infinity to integer")
      /\ handle_response Batcher get_batch tb r
         = {| text_batcher := tb; trace := []; raised := Some e |}
      /\ handle_responses Batcher get_batch tb (r :: later)
         = {| text_batcher := tb; trace := []; raised := Some e |}.
Proof.
  intros Batcher get_batch tb r later first rest alt alts Hsel Hres Halt Hbad.
  eexists. split; [reflexivity |].
  assert (Hone : handle_response Batcher get_batch tb r
                 = {| text_batcher := tb; trace := [];
                      raised := Some (if is_nan (confidence alt)
                                      then ValueError "cannot convert float NaN to integer"
                                      else OverflowError
                                             "cannot convert float infinity to integer") |}).
  { rewrite (selected_first get_batch tb r first rest Hres Hsel).
    unfold handle_result. rewrite Halt.
    destruct (is_nan (confidence alt)) eqn:N.
    - now rewrite (percent_nan _ N).
    - cbn [orb] in Hbad. now rewrite (percent_inf _ Hbad). }
  split; [exact Hone |].
  cbn [handle_responses]. rewrite Hone. reflexivity.
Qed.

(** Witness for X15: a final result with a NaN confidence, in front of a
    final "hello". *)
Lemma bad_confidence_witness :
  selected Demo.nan_final = true
  /\ trace (handle_responses nat Demo.echo_batcher (Some 0)
              [Demo.nan_final; Demo.hello_final]) = []
  /\ text_batcher (handle_responses nat Demo.echo_batcher (Some 0)
                     [Demo.nan_final; Demo.hello_final]) = Some 0.
Proof.
  destruct (bad_confidence_raises_before_any_call nat Demo.echo_batcher (Some 0)
              Demo.nan_final [Demo.hello_final] _ _ _ _
              eq_refl eq_refl eq_refl eq_refl) as (e & _ & _ & H).
  split; [reflexivity |]. rewrite H. split; reflexivity.
Defined.

Lemma no_batcher_one {Batcher : Type}
    (get_batch : Batcher -> string -> bool -> option (list string) * Batcher)
    (r : response) :
  raised (handle_response Batcher get_batch None r) = None ->
  handle_response Batcher get_batch None r
  = {| text_batcher := None;
       trace := flat_map (fun text => [Process [text] true; Print (print_final text)])
                  (final_text r);
       raised := None |}.
Proof.
  unfold handle_response, selected, final_text.
  destruct (results r) as [| first rest]; [reflexivity |].
  unfold handle_result.
  destruct (is_final first) eqn:F; rewrite ?orb_true_r.
  - destruct (alternatives first) as [| alt alts]; [reflexivity |].
    destruct (percent (confidence alt)); [reflexivity | discriminate].
  - rewrite orb_false_r.
    destruct (1 <? length (first :: rest)); [| reflexivity].
    destruct (alternatives first) as [| alt alts]; [reflexivity |].
    destruct (percent (confidence alt)); [reflexivity | discriminate].
Qed.

(** X16: without a batcher only final results count.  If no exception ends
    the loop, its calls are, for each response whose first result is final
    and has an alternative, in order: [process([transcript], reset=True)]
    and the print of that transcript; interim results cause no call at all,
    and every batch processed has exactly one element. *)
Theorem without_batcher_only_finals_count :
  forall (Batcher : Type)
         (get_batch : Batcher -> string -> bool -> option (list string) * Batcher)
         (responses : list response),
    raised (handle_responses Batcher get_batch None responses) = None ->
    trace (handle_responses Batcher get_batch None responses)
    = flat_map (fun text => [Process [text] true; Print (print_final text)])
        (flat_map final_text responses)
    /\ text_batcher (handle_responses Batcher get_batch None responses) = None.
Proof.
  intros Batcher get_batch responses.
  induction responses as [| r rs IH]; intros H; [now split |].
  cbn [handle_responses] in *.
  destruct (raised (handle_response Batcher get_batch None r)) eqn:E;
    [rewrite E in H; discriminate |].
  rewrite (no_batcher_one get_batch r E) in *.
  cbn [text_batcher trace raised] in *.
  destruct (IH H) as [IH1 IH2].
  cbn [flat_map]. rewrite flat_map_app, IH1. now split.
Qed.

(** Witness for X16: an interim result, a final "hello", and a response
    whose final first result has no alternative. *)
Lemma without_batcher_witness :
  raised (handle_responses unit (fun b _ _ => (None, b)) None
            [Demo.one_interim; Demo.hello_final; Demo.blank_first]) = None
  /\ trace (handle_responses unit (fun b _ _ => (None, b)) None
              [Demo.one_interim; Demo.hello_final; Demo.blank_first])
     = [Process ["hello"%string] true; Print (print_final "hello")].
Proof.
  assert (H : raised (handle_responses unit (fun b _ _ => (None, b)) None
                        [Demo.one_interim; Demo.hello_final; Demo.blank_first])
              = None) by (vm_compute; reflexivity).
  split; [exact H |].
  exact (proj1 (without_batcher_only_finals_count unit (fun b _ _ => (None, b))
                  [Demo.one_interim; Demo.hello_final; Demo.blank_first] H)).
Defined.

End RecognizerMore.

(** ** There and back between integers and floats *)

Module ConvertMore.
Import Py Numpy Convert ConvertFacts.

Lemma all_from_spec (n : nat) : forall (base : Z) (f : Z -> bool),
  all_from n base f = true ->
  forall z, (base <= z < base + 2 ^ Z.of_nat n)%Z -> f z = true.
Proof.
  induction n as [| n IH]; intros base f H z Hz; cbn [all_from] in H.
  - change (2 ^ Z.of_nat 0)%Z with 1%Z in Hz. now replace z with base by lia.
  - apply andb_prop in H. destruct H as [H1 H2].
    rewrite Nat2Z.inj_succ, Z.pow_succ_r in Hz by lia.
    destruct (Z.lt_ge_cases z (base + 2 ^ Z.of_nat n)) as [Hlt | Hge].
    + apply (IH base f H1). lia.
    + apply (IH _ f H2). lia.
Qed.

Lemma samples_16_there_and_back :
  all_from 16 (-32768) (there_and_back int16) = true.
Proof. vm_cast_no_check (eq_refl true). Qed.

Lemma samples_8_there_and_back :
  all_from 8 (-128) (there_and_back int8) = true.
Proof. vm_cast_no_check (eq_refl true). Qed.

Lemma samples_16_in_unit : all_from 16 (-32768) (in_unit int16) = true.
Proof. vm_cast_no_check (eq_refl true). Qed.

Lemma samples_8_in_unit : all_from 8 (-128) (in_unit int8) = true.
Proof. vm_cast_no_check (eq_refl true). Qed.

Lemma single_16_there_and_back :
  all_from 16 (-32768) (Single.there_and_back int16) = true.
Proof. vm_cast_no_check (eq_refl true). Qed.

Lemma single_8_there_and_back :
  all_from 8 (-128) (Single.there_and_back int8) = true.
Proof. vm_cast_no_check (eq_refl true). Qed.

Lemma traverse_id (f : Z -> option Z) (P : Z -> Prop) (a : list Z) :
  (forall z, P z -> f z = Some z) -> Forall P a -> traverse f a = Some a.
Proof.
  intros Hf. induction 1 as [| z a Hz _ IH]; cbn [traverse]; [reflexivity |].
  now rewrite (Hf z Hz), IH.
Qed.

Lemma small_signed (t : int_dtype) :
  signed t = true -> (bits (np_iinfo t) <= 16)%Z -> t = int8 \/ t = int16.
Proof. destruct t; cbn; intros Hs Hb; try discriminate Hs; try lia; auto. Qed.

Lemma fits_range (t : int_dtype) (z : Z) :
  fits t z ->
  (t = int8 -> (-128 <= z < -128 + 2 ^ Z.of_nat 8)%Z)
  /\ (t = int16 -> (-32768 <= z < -32768 + 2 ^ Z.of_nat 16)%Z).
Proof.
  unfold fits. intros H. split; intros ->; cbn [np_iinfo min max] in H;
    change (2 ^ Z.of_nat 8)%Z with 256%Z; change (2 ^ Z.of_nat 16)%Z with 65536%Z; lia.
Qed.

Lemma sample_there_and_back (t : int_dtype) (z : Z) :
  signed t = true -> (bits (np_iinfo t) <= 16)%Z -> fits t z ->
  there_and_back t z = true.
Proof.
  intros Hs Hb Hz. destruct (fits_range t z Hz) as [H8 H16].
  destruct (small_signed t Hs Hb) as [-> | ->].
  - exact (all_from_spec 8 _ _ samples_8_there_and_back z (H8 eq_refl)).
  - exact (all_from_spec 16 _ _ samples_16_there_and_back z (H16 eq_refl)).
Qed.

Lemma single_there_and_back (t : int_dtype) (z : Z) :
  signed t = true -> (bits (np_iinfo t) <= 16)%Z -> fits t z ->
  Single.there_and_back t z = true.
Proof.
  intros Hs Hb Hz. destruct (fits_range t z Hz) as [H8 H16].
  destruct (small_signed t Hs Hb) as [-> | ->].
  - exact (all_from_spec 8 _ _ single_8_there_and_back z (H8 eq_refl)).
  - exact (all_from_spec 16 _ _ single_16_there_and_back z (H16 eq_refl)).
Qed.

Lemma sample_in_unit (t : int_dtype) (z : Z) :
  signed t = true -> (bits (np_iinfo t) <= 16)%Z -> fits t z ->
  in_unit t z = true.
Proof.
  intros Hs Hb Hz. destruct (fits_range t z Hz) as [H8 H16].
  destruct (small_signed t Hs Hb) as [-> | ->].
  - exact (all_from_spec 8 _ _ samples_8_in_unit z (H8 eq_refl)).
  - exact (all_from_spec 16 _ _ samples_16_in_unit z (H16 eq_refl)).
Qed.

(** X17: 8- and 16-bit samples survive the trip through [float64] exactly:
    for an array [data] of a signed 8- or 16-bit dtype [t],
    [audio_float2int(audio_int2float(data, float_type=np.float64), int_type=t)]
    is [data], whatever the build makes of values the type cannot hold. *)
Theorem int_float_int_is_identity :
  forall (invalid : int_dtype -> float -> Z)
         (frombuffer : bytes -> result farray)
         (tobytes : int_dtype -> list Z -> bytes)
         (frombuffer_int : int_dtype -> bytes -> list Z)
         (tobytes_float : farray -> bytes)
         (t : int_dtype) (a : list Z),
    signed t = true ->
    (bits (np_iinfo t) <= 16)%Z ->
    Forall (fits t) a ->
    exists floats,
      audio_int2float frombuffer_int tobytes_float (Arr a) t = Arr floats
      /\ length floats = length a
      /\ audio_float2int invalid frombuffer tobytes (Arr floats) t = Ok (Arr a).
Proof.
  intros invalid frombuffer tobytes frombuffer_int tobytes_float t a Hs Hb Hall.
  exists (int2float_array a t). split; [reflexivity |]. split.
  - unfold int2float_array. now rewrite length_map.
  - unfold audio_float2int. do 2 f_equal.
    unfold float2int_array, astype, clip, mul_int, int2float_array.
    rewrite !map_map.
    induction Hall as [| z a Hz _ IH]; cbn [map]; [reflexivity |].
    rewrite IH. f_equal.
    pose proof (sample_there_and_back t z Hs Hb Hz) as H.
    unfold there_and_back, int2float_array in H. cbn [map] in H.
    unfold cast1.
    destruct (trunc _) as [v |]; [| discriminate].
    apply andb_prop in H. destruct H as [H Hhi].
    apply andb_prop in H. destruct H as [Heq Hlo].
    rewrite Hlo, Hhi. cbn [andb]. now apply Z.eqb_eq.
Qed.

(** Witness for X17: the two ends of the 16-bit range, zero and its
    neighbours. *)
Lemma int_float_int_witness :
  Forall (fits int16) [-32768; -1; 0; 1; 32767]%Z
  /\ audio_float2int (fun _ _ => 0%Z) (fun _ => Ok []) (fun _ _ => [])
       (audio_int2float (fun _ _ => []) (fun _ => [])
          (Arr [-32768; -1; 0; 1; 32767]%Z) int16) int16
     = Ok (Arr [-32768; -1; 0; 1; 32767]%Z).
Proof.
  assert (H : Forall (fits int16) [-32768; -1; 0; 1; 32767]%Z).
  { repeat constructor; cbn; lia. }
  split; [exact H |].
  destruct (int_float_int_is_identity (fun _ _ => 0%Z) (fun _ => Ok [])
              (fun _ _ => []) (fun _ _ => []) (fun _ => []) int16
              [-32768; -1; 0; 1; 32767]%Z
              eq_refl ltac:(cbn; lia) H) as (floats & Hf & _ & Hback).
  rewrite Hf. exact Hback.
Defined.

(** X18: [audio_int2float] maps every signed 8- or 16-bit sample into
    [-1.0, 1.0): the least sample becomes exactly -1.0, zero stays zero, and
    1.0 is never reached. *)
Theorem int2float_stays_in_unit_range :
  forall (t : int_dtype) (a : list Z),
    signed t = true ->
    (bits (np_iinfo t) <= 16)%Z ->
    Forall (fits t) a ->
    Forall (fun x => PrimFloat.leb (-1) x = true /\ PrimFloat.ltb x 1 = true)
      (int2float_array a t)
    /\ int2float_array [min (np_iinfo t); 0%Z] t = [(-1)%float; 0%float].
Proof.
  intros t a Hs Hb Hall. split.
  - induction Hall as [| z a Hz _ IH]; [constructor |].
    unfold int2float_array in *. cbn [map]. constructor; [| exact IH].
    pose proof (sample_in_unit t z Hs Hb Hz) as H.
    unfold in_unit, int2float_array in H. cbn [map] in H.
    apply andb_prop in H. exact H.
  - destruct (small_signed t Hs Hb) as [-> | ->]; vm_compute; reflexivity.
Qed.

(** Witness for X18: the ends of the 8-bit range. *)
Lemma int2float_unit_range_witness :
  Forall (fits int8) [-128; 127]%Z
  /\ Forall (fun x => PrimFloat.leb (-1) x = true /\ PrimFloat.ltb x 1 = true)
       (int2float_array [-128; 127]%Z int8).
Proof.
  assert (H : Forall (fits int8) [-128; 127]%Z).
  { repeat constructor; cbn; lia. }
  split; [exact H |].
  apply (int2float_stays_in_unit_range int8 [-128; 127]%Z eq_refl); [cbn; lia | exact H].
Defined.

(** X19: the same trip through [float32], the default [float_type] of
    [audio_int2float]: converting an array of signed 8- or 16-bit samples to
    [float32] and back with [audio_float2int] returns the array. *)
Theorem int_float32_int_is_identity :
  forall (t : int_dtype) (a : list Z),
    signed t = true ->
    (bits (np_iinfo t) <= 16)%Z ->
    Forall (fits t) a ->
    Single.float2int_array (Single.int2float_array a t) t = Some a.
Proof.
  intros t a Hs Hb Hall.
  unfold Single.float2int_array, Single.int2float_array.
  rewrite !map_map, traverse_map.
  rewrite (traverse_id _ (fits t) a); [reflexivity | | exact Hall].
  intros z Hz. pose proof (single_there_and_back t z Hs Hb Hz) as H.
  unfold Single.there_and_back, Single.float2int_array, Single.int2float_array in H.
  cbn [map traverse] in H.
  destruct (Single.scast1 t _) as [v |]; [| discriminate].
  apply Z.eqb_eq in H. now subst.
Qed.

(** Witness for X19: 16-bit samples through [float32]. *)
Lemma int_float32_int_witness :
  Single.float2int_array
    (Single.int2float_array [-32768; -12345; 0; 1; 32767]%Z int16) int16
  = Some [-32768; -12345; 0; 1; 32767]%Z.
Proof.
  apply (int_float32_int_is_identity int16 [-32768; -12345; 0; 1; 32767]%Z
           eq_refl).
  - cbn. lia.
  - repeat constructor; cbn; lia.
Defined.

End ConvertMore.
